(** * Cache simulator: LRU cache model and memory access pattern generators

    A shallow embedding of [cache_simulator/cache_dataset/cache.py] and of the
    six generators under [cache_simulator/cache_dataset/patterns/], together
    with the properties stated for them.

    Python integers are unbounded, so they are [Z]; [//] and [%] are floor
    division and its remainder, which is what [Z.div] and [Z.modulo] compute
    for a non-zero divisor; a zero divisor raises [ZeroDivisionError]. *)

From Stdlib Require Import ZArith QArith Lia.
From stdpp Require Import gmap list sets strings pretty.

Local Open Scope Z_scope.

(** ** Exceptions and results *)

Inductive exn : Type :=
  | ValueError
  | KeyError
  | ZeroDivisionError.

Inductive result (A : Type) : Type :=
  | Ok (a : A)
  | Raise (e : exn).
Arguments Ok {A} a.
Arguments Raise {A} e.

Definition py_floordiv (a b : Z) : result Z :=
  if b =? 0 then Raise ZeroDivisionError else Ok (a / b).

Definition py_mod (a b : Z) : result Z :=
  if b =? 0 then Raise ZeroDivisionError else Ok (a mod b).

(** ** OrderedDict[int, None]

    Only the keys matter, and their order: a list of tags without
    repetition, first entry the oldest. *)

Module OrderedDict.

Abbreviation t := (list Z) (only parsing).

Definition contains (tag : Z) (od : t) : bool := bool_decide (tag ∈ od).

(** [od.move_to_end(tag)]: [KeyError] when the key is absent. *)
Definition move_to_end (tag : Z) (od : t) : result t :=
  if contains tag od then Ok (filter (λ x, x ≠ tag) od ++ [tag])
  else Raise KeyError.

(** [od.popitem(last=False)]: [KeyError] on an empty dictionary. *)
Definition popitem_first (od : t) : result (Z * t) :=
  match od with
  | [] => Raise KeyError
  | x :: rest => Ok (x, rest)
  end.

(** [od[tag] = None]: a present key keeps its place, a new one goes last. *)
Definition setitem (tag : Z) (od : t) : t :=
  if contains tag od then od else od ++ [tag].

Definition len (od : t) : Z := Z.of_nat (length od).

End OrderedDict.

(** ** The cache object *)

Record Cache : Type := mkCache {
  line_size : Z;
  num_lines : Z;
  associativity : Z;
  num_sets : Z;
  lines_per_set : Z;
  cache : gmap Z OrderedDict.t;
  tag_set : gset Z
}.

(** [{set_idx: OrderedDict() for set_idx in range(n)}] *)
Definition empty_sets (n : Z) : gmap Z OrderedDict.t :=
  foldr (λ set_idx m, <[set_idx := []]> m) ∅ (seqZ 0 n).

(** [Cache.__init__] *)
Definition __init__ (line_size num_lines associativity : Z) : result Cache :=
  let mk ns lps :=
    Ok (mkCache line_size num_lines associativity ns lps (empty_sets ns) ∅) in
  if associativity =? 0 then mk 1 num_lines
  else if associativity =? 1 then mk num_lines 1
  else if negb (num_lines mod associativity =? 0) then Raise ValueError
  else mk (num_lines / associativity) associativity.

(** ** Methods: a state and exception monad over the cache object

    A method call takes the object and gives back the object as the call
    left it, with either the returned value or the exception raised. *)

Definition M (A : Type) : Type := Cache → result A * Cache.

#[global] Instance M_ret : MRet M := λ A a c, (Ok a, c).

#[global] Instance M_bind : MBind M := λ A B f m c,
  match m c with
  | (Ok a, c') => f a c'
  | (Raise e, c') => (Raise e, c')
  end.

Definition lift {A} (r : result A) : M A := λ c, (r, c).

Definition self {A} (field : Cache → A) : M A := λ c, (Ok (field c), c).

Definition set_cache (m : gmap Z OrderedDict.t) (c : Cache) : Cache :=
  mkCache (line_size c) (num_lines c) (associativity c) (num_sets c)
          (lines_per_set c) m (tag_set c).

Definition set_tag_set (s : gset Z) (c : Cache) : Cache :=
  mkCache (line_size c) (num_lines c) (associativity c) (num_sets c)
          (lines_per_set c) (cache c) s.

(** [self.cache[set_idx]] *)
Definition cache_getitem (set_idx : Z) : M OrderedDict.t :=
  λ c, match cache c !! set_idx with
       | Some od => (Ok od, c)
       | None => (Raise KeyError, c)
       end.

(** The dictionary stored under [set_idx] is mutated in place. *)
Definition cache_store (set_idx : Z) (od : OrderedDict.t) : M unit :=
  λ c, (Ok tt, set_cache (<[set_idx := od]> (cache c)) c).

(** [self.tag_set.remove(tag)]: [KeyError] when absent. *)
Definition tag_set_remove (tag : Z) : M unit :=
  λ c, if bool_decide (tag ∈ tag_set c)
       then (Ok tt, set_tag_set (tag_set c ∖ {[tag]}) c)
       else (Raise KeyError, c).

(** [self.tag_set.add(tag)] *)
Definition tag_set_add (tag : Z) : M unit :=
  λ c, (Ok tt, set_tag_set ({[tag]} ∪ tag_set c) c).

(** [Cache.get_set_index] *)
Definition get_set_index (address : Z) : M Z :=
  ls ← self line_size;
  line_address ← lift (py_floordiv address ls);
  assoc ← self associativity;
  if assoc =? 0 then mret 0
  else ns ← self num_sets; lift (py_mod line_address ns).

(** [Cache.get_tag] *)
Definition get_tag (address : Z) : M Z :=
  ls ← self line_size;
  lift (py_floordiv address ls).

(** [Cache.is_in_cache] *)
Definition is_in_cache (address : Z) : M bool :=
  set_idx ← get_set_index address;
  tag ← get_tag address;
  od ← cache_getitem set_idx;
  if OrderedDict.contains tag od then
    od ← cache_getitem set_idx;
    od' ← lift (OrderedDict.move_to_end tag od);
    cache_store set_idx od';;
    mret true
  else mret false.

(** [Cache.add_to_cache] *)
Definition add_to_cache (address : Z) : M unit :=
  set_idx ← get_set_index address;
  tag ← get_tag address;
  od ← cache_getitem set_idx;
  if OrderedDict.contains tag od then
    od ← cache_getitem set_idx;
    od' ← lift (OrderedDict.move_to_end tag od);
    cache_store set_idx od'
  else
    od ← cache_getitem set_idx;
    lps ← self lines_per_set;
    (if lps <=? OrderedDict.len od then
       od ← cache_getitem set_idx;
       popped ← lift (OrderedDict.popitem_first od);
       cache_store set_idx popped.2;;
       tag_set_remove popped.1
     else mret tt);;
    od ← cache_getitem set_idx;
    cache_store set_idx (OrderedDict.setitem tag od);;
    tag_set_add tag.

(** [Cache.reset_cache] *)
Definition reset_cache : M unit :=
  λ c, (Ok tt, set_tag_set ∅ (set_cache (empty_sets (num_sets c)) c)).

(** ** Driving a cache: operations, runs, reachable states *)

Inductive op : Type :=
  | Probe (address : Z)
  | Insert (address : Z)
  | Reset.

(** What the caller observes from one call. *)
Inductive obs : Type :=
  | Hit
  | Miss
  | Done
  | Raised (e : exn).

Definition obs_of_bool (r : result bool) : obs :=
  match r with
  | Ok true => Hit
  | Ok false => Miss
  | Raise e => Raised e
  end.

Definition obs_of_unit (r : result unit) : obs :=
  match r with
  | Ok _ => Done
  | Raise e => Raised e
  end.

Definition exec (o : op) (c : Cache) : obs * Cache :=
  match o with
  | Probe a => let '(r, c') := is_in_cache a c in (obs_of_bool r, c')
  | Insert a => let '(r, c') := add_to_cache a c in (obs_of_unit r, c')
  | Reset => let '(r, c') := reset_cache c in (obs_of_unit r, c')
  end.

(** A caller that goes on after an exception works on the object as the
    failed call left it, so a run keeps the state of every call. *)
Fixpoint run (os : list op) (c : Cache) : list obs * Cache :=
  match os with
  | [] => ([], c)
  | o :: rest =>
      let '(r, c') := exec o c in
      let '(rs, c'') := run rest c' in
      (r :: rs, c'')
  end.

Inductive reachable (c0 : Cache) : Cache → Prop :=
  | reach_init : reachable c0 c0
  | reach_step c o : reachable c0 c → reachable c0 (exec o c).2.

(** ** Resident tags and the set of a tag *)

(** The tags held by any set. *)
Definition resident_of (m : gmap Z (list Z)) : gset Z :=
  ⋃ (list_to_set <$> (map_to_list m).*2).

Definition resident_tags (c : Cache) : gset Z := resident_of (cache c).

(** The set a tag belongs to. *)
Definition home_set (c : Cache) (tag : Z) : Z :=
  if associativity c =? 0 then 0 else tag mod num_sets c.

(** ** The transitions a call can make

    Every call either leaves the object alone, touches a resident tag,
    appends a tag to a set with room, evicts the oldest tag and appends, or
    resets. The last constructor is the one exceptional exit that has
    already mutated the object: the popped tag missing from [tag_set]. *)

Definition touch (tag : Z) (od : OrderedDict.t) : OrderedDict.t :=
  filter (λ x, x ≠ tag) od ++ [tag].

Inductive transition (c : Cache) : Cache → Prop :=
  | tr_none : transition c c
  | tr_touch s od t :
      cache c !! s = Some od → t ∈ od →
      transition c (set_cache (<[s := touch t od]> (cache c)) c)
  | tr_append s od t :
      cache c !! s = Some od → t ∉ od → home_set c t = s →
      OrderedDict.len od < lines_per_set c →
      transition c (set_tag_set ({[t]} ∪ tag_set c)
                      (set_cache (<[s := od ++ [t]]> (cache c)) c))
  | tr_evict s x rest t :
      cache c !! s = Some (x :: rest) → t ∉ x :: rest → home_set c t = s →
      lines_per_set c ≤ OrderedDict.len (x :: rest) → x ∈ tag_set c →
      transition c (set_tag_set ({[t]} ∪ tag_set c ∖ {[x]})
                      (set_cache (<[s := rest ++ [t]]> (cache c)) c))
  | tr_reset :
      transition c (set_tag_set ∅ (set_cache (empty_sets (num_sets c)) c))
  | tr_pop_only s x rest :
      cache c !! s = Some (x :: rest) → x ∉ tag_set c →
      transition c (set_cache (<[s := rest]> (cache c)) c).

(** ** What a call does, as one case analysis *)

Definition probe_outcome (s t : Z) (c : Cache) : result bool * Cache :=
  match cache c !! s with
  | None => (Raise KeyError, c)
  | Some od =>
      if bool_decide (t ∈ od)
      then (Ok true, set_cache (<[s := touch t od]> (cache c)) c)
      else (Ok false, c)
  end.

Definition insert_outcome (s t : Z) (c : Cache) : result unit * Cache :=
  match cache c !! s with
  | None => (Raise KeyError, c)
  | Some od =>
      if bool_decide (t ∈ od)
      then (Ok tt, set_cache (<[s := touch t od]> (cache c)) c)
      else if lines_per_set c <=? OrderedDict.len od then
        match od with
        | [] => (Raise KeyError, c)
        | x :: rest =>
            if bool_decide (x ∈ tag_set c)
            then (Ok tt, set_tag_set ({[t]} ∪ tag_set c ∖ {[x]})
                           (set_cache (<[s := rest ++ [t]]> (cache c)) c))
            else (Raise KeyError, set_cache (<[s := rest]> (cache c)) c)
        end
      else (Ok tt, set_tag_set ({[t]} ∪ tag_set c)
                     (set_cache (<[s := od ++ [t]]> (cache c)) c))
  end.

(** ** Invariants of the tag store *)

(** Tags do not repeat inside a set, every tag sits in the set its index
    selects, and [tag_set] is the union of the sets. *)
Record well_formed (c : Cache) : Prop := {
  wf_nodup : ∀ s od, cache c !! s = Some od → NoDup od;
  wf_home : ∀ s od t, cache c !! s = Some od → t ∈ od → home_set c t = s;
  wf_tag_set : tag_set c = resident_tags c
}.

Definition within_capacity (c : Cache) : Prop :=
  ∀ s od, cache c !! s = Some od → OrderedDict.len od ≤ lines_per_set c.

Definition same_config (c c' : Cache) : Prop :=
  line_size c' = line_size c ∧ num_lines c' = num_lines c ∧
  associativity c' = associativity c ∧ num_sets c' = num_sets c ∧
  lines_per_set c' = lines_per_set c.

(** Tags held by the sets other than [s]. *)
Definition elsewhere (m : gmap Z (list Z)) (s t : Z) : Prop :=
  ∃ s' od, s' ≠ s ∧ m !! s' = Some od ∧ t ∈ od.

(** ** The fully associative cache as one LRU list *)

(** With associativity 0 every address selects set 0; the cache then
    behaves as the list of its resident tags, oldest first. *)
Definition lru_probe (t : Z) (od : list Z) : obs * list Z :=
  if bool_decide (t ∈ od) then (Hit, touch t od) else (Miss, od).

Definition lru_insert (N t : Z) (od : list Z) : list Z :=
  if bool_decide (t ∈ od) then touch t od
  else if N <=? OrderedDict.len od then tail od ++ [t]
  else od ++ [t].

Definition lru_exec (ls N : Z) (o : op) (od : list Z) : obs * list Z :=
  match o with
  | Probe a => lru_probe (a / ls) od
  | Insert a => (Done, lru_insert N (a / ls) od)
  | Reset => (Done, [])
  end.

Fixpoint lru_run (ls N : Z) (os : list op) (od : list Z) : list obs * list Z :=
  match os with
  | [] => ([], od)
  | o :: rest =>
      let '(r, od') := lru_exec ls N o od in
      let '(rs, od'') := lru_run ls N rest od' in
      (r :: rs, od'')
  end.

Record lru_state (ls N : Z) (od : list Z) (c : Cache) : Prop := {
  lru_line_size : line_size c = ls;
  lru_assoc : associativity c = 0;
  lru_num_sets : num_sets c = 1;
  lru_lines : lines_per_set c = N;
  lru_set : cache c !! 0 = Some od;
  lru_only : ∀ s, s ≠ 0 → cache c !! s = None;
  lru_tags : tag_set c = list_to_set od;
  lru_nodup : NoDup od
}.

(** The tags of a list of addresses, and touching a list of tags in turn. *)
Definition tags_of (ls : Z) (addrs : list Z) : list Z :=
  (λ a, a / ls) <$> addrs.

Definition touch_all (od ts : list Z) : list Z :=
  foldl (λ l t, touch t l) od ts.

(** * Memory access pattern generators *)

(** ** Floats as far as the generators use them

    The generators only compare floats. Comparison of two doubles is exact
    on the values they denote, so a float is its rational value, an infinity
    or NaN; every comparison with NaN is false. *)

Inductive pyfloat : Type :=
  | Finite (q : Q)
  | PosInf
  | NegInf
  | NaN.

Definition float_le (x y : pyfloat) : bool :=
  match x, y with
  | NaN, _ | _, NaN => false
  | NegInf, _ => true
  | _, PosInf => true
  | Finite a, Finite b => Qle_bool a b
  | _, _ => false
  end.

Definition float_lt (x y : pyfloat) : bool :=
  match x, y with
  | NaN, _ | _, NaN => false
  | Finite a, Finite b => negb (Qle_bool b a)
  | NegInf, (Finite _ | PosInf) => true
  | Finite _, PosInf => true
  | _, _ => false
  end.

Definition float_of_Z (z : Z) : pyfloat := Finite (inject_Z z).

(** ** The [random] module

    The state of the global generator is the sequence of its future raw
    outputs and a position in it. [randint(a, b)] returns an integer of
    [a..b] and raises [ValueError] on an empty range; [random()] returns one
    of the doubles [k / 2^53] with [0 <= k < 2^53]. *)

Record RandomState : Type := mkRandomState {
  raw : nat → Z;
  pos : nat
}.

Definition advance (g : RandomState) : RandomState :=
  mkRandomState (raw g) (S (pos g)).

(** A state of the generator to run examples from. *)
Definition sample_random : RandomState :=
  mkRandomState (λ n, Z.of_nat n * 7919 + 13) 0.

(** ** Generators

    Draining a generator gives the addresses it yielded and then how it
    ended: by returning or by raising. *)

Definition Gen (A : Type) : Type := RandomState → list Z * result A * RandomState.

#[global] Instance Gen_ret : MRet Gen := λ A a g, ([], Ok a, g).

#[global] Instance Gen_bind : MBind Gen := λ A B f m g,
  match m g with
  | (ys, Ok a, g') => let '(zs, r, g'') := f a g' in (ys ++ zs, r, g'')
  | (ys, Raise e, g') => (ys, Raise e, g')
  end.

Definition raise {A} (e : exn) : Gen A := λ g, ([], Raise e, g).

Definition yield (address : Z) : Gen unit := λ g, ([address], Ok tt, g).

Definition eval {A} (r : result A) : Gen A := λ g, ([], r, g).

Definition randint (a b : Z) : Gen Z :=
  λ g, if b <? a then ([], Raise ValueError, g)
       else ([], Ok (a + raw g (pos g) mod (b - a + 1)), advance g).

Definition random : Gen pyfloat :=
  λ g, ([], Ok (Finite (Qmake (raw g (pos g) mod 2 ^ 53) (2 ^ 53))), advance g).

(** [for i in xs: body], with the local variables the body updates as [s]. *)
Fixpoint for_each {S : Type} (xs : list Z) (body : Z → S → Gen S) (s : S)
  : Gen S :=
  match xs with
  | [] => mret s
  | i :: rest => s' ← body i s; for_each rest body s'
  end.

(** [for i in range(n): body] *)
Definition for_range {S : Type} (n : Z) (body : Z → S → Gen S) (s : S) : Gen S :=
  for_each (seqZ 0 n) body s.

(** [BaseMemoryAccessPattern._validate_common_params] *)
Definition _validate_common_params (max_address length : Z) : Gen unit :=
  if max_address <=? 0 then raise ValueError
  else if length <=? 0 then raise ValueError
  else mret tt.

Module SequentialWithJumpsPattern.

Definition generate_sequence (max_address length : Z) (epsilon : pyfloat)
  : Gen unit :=
  _validate_common_params max_address length;;
  (if negb (float_le (float_of_Z 0) epsilon && float_le epsilon (float_of_Z 1))
   then raise ValueError else mret tt);;
  current_address ← randint 0 max_address;
  for_range length (λ _ current_address,
    u ← random;
    current_address ←
      (if float_lt u epsilon then randint 0 max_address
       else eval (py_mod (current_address + 1) (max_address + 1)));
    yield current_address;;
    mret current_address) current_address;;
  mret tt.

(** The doubles nearest to 0.01 and 0.1. *)
Definition _DEFAULT_EPSILON_MIN : pyfloat :=
  Finite (5764607523034235 # 576460752303423488).
Definition _DEFAULT_EPSILON_MAX : pyfloat :=
  Finite (3602879701896397 # 36028797018963968).

(** [random.uniform] is a parameter: see [uniform_contract]. *)
Definition generate_random_params
    (uniform : pyfloat → pyfloat → Gen pyfloat) (max_address length : Z)
  : Gen (Z * Z * pyfloat) :=
  epsilon ← uniform _DEFAULT_EPSILON_MIN _DEFAULT_EPSILON_MAX;
  mret (max_address, length, epsilon).

End SequentialWithJumpsPattern.

Module LoopPattern.

Definition generate_sequence (max_address length loop_size : Z) : Gen unit :=
  _validate_common_params max_address length;;
  (if (loop_size <? 1) || (max_address <? loop_size)
   then raise ValueError else mret tt);;
  start_address ← randint 0 (Z.max 0 (max_address - loop_size));
  for_range length (λ i _,
    r ← eval (py_mod i loop_size);
    yield (start_address + r)) tt.

Definition _DEFAULT_LOOP_SIZE_MIN : Z := 10.
Definition _DEFAULT_LOOP_SIZE_MAX : Z := 1000.

Definition generate_random_params (max_address length : Z) : Gen (Z * Z * Z) :=
  loop_size ← randint _DEFAULT_LOOP_SIZE_MIN
                 (Z.min _DEFAULT_LOOP_SIZE_MAX max_address);
  mret (max_address, length, loop_size).

End LoopPattern.

Module RandomPattern.

Definition generate_sequence (max_address length : Z) : Gen unit :=
  _validate_common_params max_address length;;
  for_range length (λ _ _,
    address ← randint 0 max_address;
    yield address) tt.

End RandomPattern.

Module StridePattern.

Definition generate_sequence (max_address length stride : Z) : Gen unit :=
  _validate_common_params max_address length;;
  (if stride <? 1 then raise ValueError else mret tt);;
  start_address ← randint 0 max_address;
  for_range length (λ i _,
    address ← eval (py_mod (start_address + i * stride) (max_address + 1));
    yield address) tt.

Definition _DEFAULT_STRIDE_MIN : Z := 1.
Definition _DEFAULT_STRIDE_MAX : Z := 16.

Definition generate_random_params (max_address length : Z) : Gen (Z * Z * Z) :=
  stride ← randint _DEFAULT_STRIDE_MIN _DEFAULT_STRIDE_MAX;
  mret (max_address, length, stride).

End StridePattern.

Module StackPattern.

Definition _STACK_HEADROOM : Z := 1000.
Definition _MAX_STACK_DEPTH : Z := 100.
Definition _STACK_MOVE_MIN : Z := 1.
Definition _STACK_MOVE_MAX : Z := 10.
Definition _PUSH_PROBABILITY : pyfloat := Finite (1 # 2).

Definition generate_sequence (max_address length stack_size : Z) : Gen unit :=
  _validate_common_params max_address length;;
  (if stack_size <? 0 then raise ValueError else mret tt);;
  let safe_min := _STACK_HEADROOM in
  let safe_max := Z.max _STACK_HEADROOM (max_address - _STACK_HEADROOM) in
  stack_pointer ← randint safe_min safe_max;
  for_range length (λ _ '(stack_pointer, current_depth),
    u ← random;
    '(stack_pointer, current_depth) ←
      (if float_lt u _PUSH_PROBABILITY && (current_depth <? _MAX_STACK_DEPTH)
       then
         move ← randint _STACK_MOVE_MIN _STACK_MOVE_MAX;
         mret (stack_pointer - move, current_depth + 1)
       else if 0 <? current_depth then
         move ← randint _STACK_MOVE_MIN _STACK_MOVE_MAX;
         mret (stack_pointer + move, current_depth - 1)
       else mret (stack_pointer, current_depth));
    let stack_pointer := Z.max 0 (Z.min stack_pointer max_address) in
    yield stack_pointer;;
    mret (stack_pointer, current_depth)) (stack_pointer, stack_size);;
  mret tt.

Definition _DEFAULT_STACK_SIZE_MIN : Z := 10.
Definition _DEFAULT_STACK_SIZE_MAX : Z := 100.

Definition generate_random_params (max_address length : Z) : Gen (Z * Z * Z) :=
  stack_size ← randint _DEFAULT_STACK_SIZE_MIN _DEFAULT_STACK_SIZE_MAX;
  mret (max_address, length, stack_size).

End StackPattern.

Module HeapPattern.

Definition _DEFAULT_MAX_HEAP_SIZE : Z := 10000.
Definition _ALLOC_MIN : Z := 1.
Definition _ALLOC_MAX : Z := 100.
(** The double nearest to 0.8. *)
Definition _ALLOCATION_PROBABILITY : pyfloat :=
  Finite (3602879701896397 # 4503599627370496).

Definition generate_sequence (max_address length : Z) : Gen unit :=
  _validate_common_params max_address length;;
  half ← eval (py_floordiv max_address 2);
  let max_heap_size := Z.min _DEFAULT_MAX_HEAP_SIZE half in
  base_address ← randint 0 (Z.max 0 (max_address - max_heap_size));
  for_range length (λ _ current_offset,
    u ← random;
    current_offset ←
      (if float_lt u _ALLOCATION_PROBABILITY then
         size ← randint _ALLOC_MIN _ALLOC_MAX;
         mret (current_offset + size)
       else randint 0 (Z.max 1 current_offset));
    let address := base_address + current_offset in
    let address := Z.min address max_address in
    yield address;;
    mret current_offset) 0;;
  mret tt.

End HeapPattern.

(** The six generators behind one interface, as the subclasses of
    [BaseMemoryAccessPattern] are behind the method [generate_sequence]. *)
Inductive pattern : Type :=
  | Sequential (epsilon : pyfloat)
  | Loop (loop_size : Z)
  | RandomAccess
  | Stride (stride : Z)
  | Stack (stack_size : Z)
  | Heap.

Definition generate_sequence (p : pattern) (max_address length : Z) : Gen unit :=
  match p with
  | Sequential epsilon =>
      SequentialWithJumpsPattern.generate_sequence max_address length epsilon
  | Loop loop_size => LoopPattern.generate_sequence max_address length loop_size
  | RandomAccess => RandomPattern.generate_sequence max_address length
  | Stride stride => StridePattern.generate_sequence max_address length stride
  | Stack stack_size =>
      StackPattern.generate_sequence max_address length stack_size
  | Heap => HeapPattern.generate_sequence max_address length
  end.

(** The addresses a drained generator yielded, and how it ended. *)
Definition yielded {A} (x : list Z * result A * RandomState) : list Z := x.1.1.
Definition ending {A} (x : list Z * result A * RandomState) : result A := x.1.2.

(** The documented bound of each pattern's own parameter. *)
Definition within_bound (p : pattern) (max_address : Z) : Prop :=
  match p with
  | Sequential epsilon =>
      float_le (float_of_Z 0) epsilon = true ∧
      float_le epsilon (float_of_Z 1) = true
  | Loop loop_size => 1 ≤ loop_size ≤ max_address
  | Stride stride => 1 ≤ stride
  | Stack stack_size => 0 ≤ stack_size
  | RandomAccess | Heap => True
  end.

Definition valid_params (p : pattern) (max_address length : Z) : Prop :=
  0 < max_address ∧ 0 < length ∧ within_bound p max_address.

Definition in_range (M a : Z) : Prop := 0 ≤ a ≤ M.

(** A drained generator that ended normally after [L] addresses of [0..M]. *)
Definition emits (M L : Z) (x : list Z * result unit * RandomState) : Prop :=
  ending x = Ok tt ∧
  length (yielded x) = Z.to_nat L ∧
  Forall (λ a, 0 ≤ a ≤ M) (yielded x).

(** The ways a pattern's own parameter can break its documented bound. *)
Definition violates_bound (p : pattern) (max_address : Z) : Prop :=
  match p with
  | Sequential epsilon =>
      float_le (float_of_Z 0) epsilon = false ∨
      float_le epsilon (float_of_Z 1) = false
  | Loop loop_size => loop_size < 1 ∨ max_address < loop_size
  | Stride stride => stride < 1
  | Stack stack_size => stack_size < 0
  | RandomAccess | Heap => False
  end.

(** * Further properties: vocabulary *)

(** ** A cache ready for use

    What construction with a non-zero line size, a positive number of lines
    and a non-negative associativity establishes, and every call keeps. *)
Record operational (c : Cache) : Prop := {
  op_line_size : line_size c ≠ 0;
  op_num_sets : 0 < num_sets c;
  op_lines_per_set : 0 < lines_per_set c;
  op_keys : ∀ s, is_Some (cache c !! s) ↔ 0 ≤ s < num_sets c;
  op_single : associativity c = 0 → num_sets c = 1;
  op_product : num_sets c * lines_per_set c = num_lines c
}.

(** The tag of an address in a given cache. *)
Definition tag_of (c : Cache) (address : Z) : Z := address / line_size c.

(** Calls other than a reset. *)
Definition is_access (o : op) : bool :=
  match o with
  | Probe _ | Insert _ => true
  | Reset => false
  end.

(** Everything the calls rely on and keep. *)
Definition ready (c : Cache) : Prop :=
  operational c ∧ well_formed c ∧ within_capacity c.

(** What a probe or an insert of tag [t] makes of the set it selects. *)
Definition set_after (N : Z) (o : op) (t : Z) (od : list Z) : list Z :=
  match o with
  | Probe _ => (lru_probe t od).2
  | Insert _ => lru_insert N t od
  | Reset => od
  end.

Definition address_of (o : op) : Z :=
  match o with
  | Probe a | Insert a => a
  | Reset => 0
  end.

(** Tag [t] is in the list with at most [k] tags more recent than it. *)
Definition recent (k : nat) (t : Z) (od : list Z) : Prop :=
  ∃ pre post, od = pre ++ t :: post ∧ (length post ≤ k)%nat.

(** ** Random parameters of the patterns *)

(** [BaseMemoryAccessPattern.generate_random_params], which the random and
    the heap pattern inherit. *)
Definition base_generate_random_params (max_address length : Z) : Gen (Z * Z) :=
  mret (max_address, length).

(** What the library documents of [random.uniform(a, b)]: a float [N] with
    [a <= N <= b] when [a <= b]. Its value is computed in floating point, so
    the function itself is left open and only this is assumed of it. *)
Definition uniform_contract (uniform : pyfloat → pyfloat → Gen pyfloat) : Prop :=
  ∀ a b g, float_le (Finite a) (Finite b) = true →
    ∃ u g', uniform (Finite a) (Finite b) g = ([], Ok (Finite u), g') ∧
            float_le (Finite a) (Finite u) = true ∧
            float_le (Finite u) (Finite b) = true.

(** A sampler within the contract, to run examples with. *)
Definition sample_uniform (a b : pyfloat) : Gen pyfloat :=
  λ g, ([], Ok a, advance g).

(** The six pattern classes, before any parameter is chosen. *)
Inductive pattern_class : Type :=
  | SequentialClass
  | LoopClass
  | RandomClass
  | StrideClass
  | StackClass
  | HeapClass.

(** [pattern.generate_random_params(max_address, length)]: the keyword
    arguments, as the pattern with its own parameter and the two common
    ones. *)
Definition generate_random_params
    (uniform : pyfloat → pyfloat → Gen pyfloat)
    (k : pattern_class) (max_address length : Z) : Gen (pattern * Z * Z) :=
  match k with
  | SequentialClass =>
      '(M, L, epsilon) ←
        SequentialWithJumpsPattern.generate_random_params uniform
          max_address length;
      mret (Sequential epsilon, M, L)
  | LoopClass =>
      '(M, L, loop_size) ← LoopPattern.generate_random_params max_address length;
      mret (Loop loop_size, M, L)
  | RandomClass =>
      '(M, L) ← base_generate_random_params max_address length;
      mret (RandomAccess, M, L)
  | StrideClass =>
      '(M, L, stride) ← StridePattern.generate_random_params max_address length;
      mret (Stride stride, M, L)
  | StackClass =>
      '(M, L, stack_size) ←
        StackPattern.generate_random_params max_address length;
      mret (Stack stack_size, M, L)
  | HeapClass =>
      '(M, L) ← base_generate_random_params max_address length;
      mret (Heap, M, L)
  end.

Definition class_of (p : pattern) : pattern_class :=
  match p with
  | Sequential _ => SequentialClass
  | Loop _ => LoopClass
  | RandomAccess => RandomClass
  | Stride _ => StrideClass
  | Stack _ => StackClass
  | Heap => HeapClass
  end.

(** Successive elements of a list are related. *)
Fixpoint chain (R : Z → Z → Prop) (x : Z) (ys : list Z) : Prop :=
  match ys with
  | [] => True
  | y :: rest => R x y ∧ chain R y rest
  end.

(** * The dataset driver

    [cache_dataset.py] up to the lists it builds: the conversion of the
    lists to tensors, the logging and the seeding are not modelled. *)

Module CacheDataset.

(** The attributes [__init__] sets. A supplied [sequences_generator] is the
    generator its call returns, drained like the others. *)
Record t : Type := mk {
  max_seq_length : Z;
  max_address : Z;
  cache_lines : list Z;
  associativity_options : list Z;
  epoch_size : Z;
  deterministic : bool;
  sequences_generator : option (Gen unit);
  global_rank : Z;
  patterns : list pattern_class
}.

(** How a method of the driver ends: the exceptions of the cache and the
    generators, or the [IndexError] of [random.choice]. *)
Inductive outcome (A : Type) : Type :=
  | Returns (a : A)
  | Raises (e : exn)
  | RaisesIndexError.
Arguments Returns {A} a.
Arguments Raises {A} e.
Arguments RaisesIndexError {A}.

Definition D (A : Type) : Type := RandomState → outcome A * RandomState.

#[global] Instance D_ret : MRet D := λ A a g, (Returns a, g).

#[global] Instance D_bind : MBind D := λ A B f m g,
  match m g with
  | (Returns a, g') => f a g'
  | (Raises e, g') => (Raises e, g')
  | (RaisesIndexError, g') => (RaisesIndexError, g')
  end.

(** [random.choice(seq)]: [seq[randbelow(len(seq))]], [IndexError] on an
    empty sequence. *)
Definition choice {A} (seq : list A) : D A :=
  λ g, match seq with
       | [] => (RaisesIndexError, g)
       | _ :: _ =>
           match seq !! Z.to_nat (raw g (pos g) mod Z.of_nat (length seq)) with
           | Some x => (Returns x, advance g)
           | None => (RaisesIndexError, g)
           end
       end.

(** A call that is not a generator: it yields nothing, returns or raises. *)
Definition call {A} (m : Gen A) : D A :=
  λ g, match m g with
       | (_, Ok a, g') => (Returns a, g')
       | (_, Raise e, g') => (Raises e, g')
       end.

Definition construct {A} (r : result A) : D A :=
  λ g, match r with
       | Ok a => (Returns a, g)
       | Raise e => (Raises e, g)
       end.

(** [CacheDataset._generate_pattern_sequence]: the pattern and its
    parameters are chosen at the call, the generator object is returned. *)
Definition _generate_pattern_sequence
    (uniform : pyfloat → pyfloat → Gen pyfloat) (self : t) : D (Gen unit) :=
  pattern ← choice (patterns self);
  '(p, M, L) ← call (generate_random_params uniform pattern
                       (max_address self) (max_seq_length self));
  mret (generate_sequence p M L).

(** The loop of [generate_data] over the addresses of the sequence. *)
Fixpoint replay (sequence : list Z) : M (list Z * list Z) :=
  match sequence with
  | [] => mret ([], [])
  | address :: rest =>
      is_hit ← is_in_cache address;
      add_to_cache address;;
      '(addresses, labels) ← replay rest;
      mret (address :: addresses,
            (if is_hit : bool then 1 else 0) :: labels)
  end.

(** Padding with -1 up to [max_seq_length]; a longer list is left alone. *)
Definition pad (self : t) (l : list Z) : list Z :=
  let pad_length := max_seq_length self - Z.of_nat (length l) in
  if 0 <? pad_length then l ++ replicate (Z.to_nat pad_length) (-1) else l.

(** [CacheDataset.generate_data] up to the three lists
    [[num_lines, associativity]], [addresses] and [labels]. An exception of
    a cache call stops the loop before the generator is resumed; one of the
    generator comes after the addresses yielded before it were replayed. The
    state of the random source after the call is not part of the result. *)
Definition generate_data (uniform : pyfloat → pyfloat → Gen pyfloat)
    (self : t) (g : RandomState) : outcome (list Z * list Z * list Z) :=
  let setup : D (Z * Z * Cache * Gen unit) :=
    num_lines ← choice (cache_lines self);
    associativity ← choice (associativity_options self);
    cache ← construct (__init__ 64 num_lines associativity);
    sequence ← match sequences_generator self with
               | Some f => mret f
               | None => _generate_pattern_sequence uniform self
               end;
    mret (num_lines, associativity, cache, sequence) in
  match setup g with
  | (Returns (num_lines, associativity, cache, sequence), g') =>
      match replay (yielded (sequence g')) cache with
      | (Raise e, _) => Raises e
      | (Ok (addresses, labels), _) =>
          match ending (sequence g') with
          | Raise e => Raises e
          | Ok _ =>
              Returns ([num_lines; associativity],
                       pad self addresses, pad self labels)
          end
      end
  | (Raises e, _) => Raises e
  | (RaisesIndexError, _) => RaisesIndexError
  end.

(** [CacheDataset.__init__] *)
Definition __init__
    (epoch_size ram_volume max_seq_length : Z)
    (cache_lines cache_associativity_options : list Z)
    (verbose : bool) (sequences_generator : option (Gen unit))
    (global_rank : Z) (deterministic : bool) : result t :=
  if ram_volume <=? 0 then Raise ValueError
  else if max_seq_length <=? 0 then Raise ValueError
  else if bool_decide (cache_lines = [])
          || existsb (λ lines, lines <=? 0) cache_lines
       then Raise ValueError
  else if bool_decide (cache_associativity_options = [])
          || existsb (λ assoc, assoc <? 0) cache_associativity_options
       then Raise ValueError
  else if epoch_size <=? 0 then Raise ValueError
  else Ok (mk max_seq_length (ram_volume - 1) cache_lines
              cache_associativity_options epoch_size deterministic
              sequences_generator global_rank
              [SequentialClass; LoopClass; RandomClass; StrideClass;
               StackClass; HeapClass]).

End CacheDataset.

(** The labels of a replay without evictions: 1 exactly for the tags seen
    before. *)
Fixpoint seen_labels (seen : list Z) (tags : list Z) : list Z :=
  match tags with
  | [] => []
  | t :: rest =>
      (if bool_decide (t ∈ seen) then 1 else 0) :: seen_labels (t :: seen) rest
  end.

(** ** The diagnostic dump of a cache *)

(** [repr] of a list of integers: [[1, 2, 3]]. *)
Definition repr_list (l : list Z) : string :=
  "[" +:+ String.concat ", " (pretty <$> l) +:+ "]".

Definition newline : string := String (Ascii.ascii_of_nat 10) EmptyString.

(** The loop of [Cache.__str__]: one line per non-empty set, in the order
    of the set indices. *)
Fixpoint str_lines (set_indices : list Z) (result : list string)
  : M (list string) :=
  match set_indices with
  | [] => mret result
  | set_idx :: rest =>
      od ← cache_getitem set_idx;
      if bool_decide (od = []) then str_lines rest result
      else
        od ← cache_getitem set_idx;
        str_lines rest
          (result ++ ["Set " +:+ pretty set_idx +:+ ": " +:+ repr_list od])
  end.

(** [Cache.__str__] *)
Definition __str__ : M string :=
  ns ← self num_sets;
  result ← str_lines (seqZ 0 ns) [];
  mret (match result with
        | [] => "Cache is empty"
        | _ :: _ => String.concat newline result
        end).

(** * Lemmas *)

(** ** Basic facts *)

Section basics.
Implicit Types (c : Cache) (od : OrderedDict.t) (s t a : Z).

Lemma empty_sets_lookup n s od : empty_sets n !! s = Some od → od = [].
Proof.
  unfold empty_sets. induction (seqZ 0 n) as [|i l IH]; simpl.
  - by rewrite lookup_empty.
  - rewrite lookup_insert. case_decide; [congruence | done].
Qed.

Lemma empty_sets_lookup_in n s : 0 ≤ s < n → empty_sets n !! s = Some [].
Proof.
  intros Hs. assert (s ∈ seqZ 0 n) as Hin by (apply elem_of_seqZ; lia).
  unfold empty_sets. induction (seqZ 0 n) as [|i l IH]; simpl.
  - by apply elem_of_nil in Hin.
  - rewrite lookup_insert. case_decide; [done|].
    apply elem_of_cons in Hin as [->|Hin]; [done | by apply IH].
Qed.

Lemma empty_sets_dom n s : is_Some (empty_sets n !! s) ↔ 0 ≤ s < n.
Proof.
  split; [|intros; rewrite empty_sets_lookup_in; eauto].
  unfold empty_sets. intros [od Hod].
  cut (s ∈ seqZ 0 n); [rewrite elem_of_seqZ; lia|].
  induction (seqZ 0 n) as [|i l IH]; simpl in Hod.
  - by rewrite lookup_empty in Hod.
  - rewrite lookup_insert in Hod. case_decide; subst; [left | right; auto].
Qed.

Lemma elem_of_resident_of (m : gmap Z (list Z)) t :
  t ∈ resident_of m ↔ ∃ s od, m !! s = Some od ∧ t ∈ od.
Proof.
  unfold resident_of. rewrite elem_of_union_list. split.
  - intros (X & HX & Ht).
    apply list_elem_of_fmap in HX as (od & -> & Hod).
    apply list_elem_of_fmap in Hod as ([s od'] & -> & Hin).
    apply elem_of_map_to_list in Hin. exists s, od'.
    split; [done | by apply elem_of_list_to_set in Ht].
  - intros (s & od & Hs & Ht). exists (list_to_set od).
    split; [| by apply elem_of_list_to_set].
    apply list_elem_of_fmap. exists od. split; [done|].
    apply list_elem_of_fmap. exists (s, od). split; [done|].
    by apply elem_of_map_to_list.
Qed.

Lemma elem_of_touch t x od : x ∈ touch t od ↔ x ∈ od ∨ x = t.
Proof.
  unfold touch. rewrite elem_of_app, list_elem_of_filter, list_elem_of_singleton.
  destruct (decide (x = t)); tauto.
Qed.

Lemma NoDup_touch t od : NoDup od → NoDup (touch t od).
Proof.
  intros Hnd. unfold touch. apply NoDup_app. split_and!.
  - by apply NoDup_filter.
  - intros x [Hx _]%list_elem_of_filter ->%list_elem_of_singleton. done.
  - apply NoDup_singleton.
Qed.

Lemma length_touch t od : t ∈ od → NoDup od → length (touch t od) = length od.
Proof.
  intros Hin Hnd. unfold touch.
  induction od as [|y od IH]; [by apply elem_of_nil in Hin|].
  apply NoDup_cons in Hnd as [Hy Hnd]. rewrite filter_cons.
  case_decide as Hyt.
  - apply elem_of_cons in Hin as [->|Hin]; [done|].
    simpl. f_equal. by apply IH.
  - subst y.
    replace (filter (λ x, x ≠ t) od) with od; [rewrite length_app; simpl; lia|].
    clear IH Hin Hnd. induction od as [|z od IH]; [done|].
    apply not_elem_of_cons in Hy as [Hne Hy].
    rewrite filter_cons_True by done. f_equal. by apply IH.
Qed.

(** The index and tag computations read the configuration and nothing else. *)
Lemma get_tag_eq a c : get_tag a c = (py_floordiv a (line_size c), c).
Proof. reflexivity. Qed.

Lemma get_set_index_eq a c :
  get_set_index a c =
    (match py_floordiv a (line_size c) with
     | Raise e => Raise e
     | Ok line_address =>
         if associativity c =? 0 then Ok 0
         else py_mod line_address (num_sets c)
     end, c).
Proof.
  unfold get_set_index, self, lift, mbind, M_bind, mret, M_ret. simpl.
  destruct (py_floordiv a (line_size c)); [|done].
  by destruct (associativity c =? 0).
Qed.

Lemma get_set_index_home a c s :
  (get_set_index a c).1 = Ok s → s = home_set c (a / line_size c).
Proof.
  rewrite get_set_index_eq. unfold py_floordiv, py_mod, home_set. simpl.
  destruct (line_size c =? 0); [done|].
  destruct (associativity c =? 0); [congruence|].
  destruct (num_sets c =? 0); congruence.
Qed.

End basics.

(** ** The calls, case by case *)

Section calls.
Implicit Types (c : Cache) (od : OrderedDict.t) (s t a : Z).

Ltac unfold_call :=
  unfold is_in_cache, add_to_cache, get_tag, cache_getitem, cache_store,
    tag_set_remove, tag_set_add, self, lift, mbind, M_bind, mret, M_ret.

Lemma is_in_cache_eq a c :
  is_in_cache a c =
    match (get_set_index a c).1 with
    | Raise e => (Raise e, c)
    | Ok s => probe_outcome s (a / line_size c) c
    end.
Proof.
  unfold_call. rewrite get_set_index_eq. simpl.
  unfold py_floordiv, probe_outcome.
  destruct (line_size c =? 0); [done|].
  destruct (if associativity c =? 0 then _ else _) as [s|e]; [|done].
  destruct (cache c !! s) as [od|] eqn:Hs; [|done].
  unfold OrderedDict.contains, OrderedDict.move_to_end, OrderedDict.contains.
  destruct (decide (a / line_size c ∈ od)) as [Ht|Ht].
  - rewrite !bool_decide_eq_true_2 by done. simpl. rewrite Hs.
    by rewrite bool_decide_eq_true_2.
  - by rewrite !bool_decide_eq_false_2.
Qed.

Lemma add_to_cache_eq a c :
  add_to_cache a c =
    match (get_set_index a c).1 with
    | Raise e => (Raise e, c)
    | Ok s => insert_outcome s (a / line_size c) c
    end.
Proof.
  unfold_call. rewrite get_set_index_eq. simpl.
  unfold py_floordiv, insert_outcome.
  destruct (line_size c =? 0); [done|].
  destruct (if associativity c =? 0 then _ else _) as [s|e]; [|done].
  destruct (cache c !! s) as [od|] eqn:Hs; [|done].
  unfold OrderedDict.contains, OrderedDict.move_to_end, OrderedDict.contains.
  destruct (decide (a / line_size c ∈ od)) as [Ht|Ht].
  { rewrite !bool_decide_eq_true_2 by done. simpl. rewrite Hs.
    by rewrite bool_decide_eq_true_2. }
  rewrite !bool_decide_eq_false_2 by done. simpl. rewrite Hs.
  destruct (lines_per_set c <=? OrderedDict.len od).
  - rewrite Hs. destruct od as [|x rest]; [done|]. simpl.
    destruct (decide (x ∈ tag_set c)) as [Hx|Hx].
    + rewrite !bool_decide_eq_true_2 by done. simpl. rewrite lookup_insert_eq.
      unfold OrderedDict.setitem, OrderedDict.contains.
      rewrite bool_decide_eq_false_2 by (by apply not_elem_of_cons in Ht as []).
      unfold set_tag_set, set_cache. simpl. by rewrite insert_insert_eq.
    + by rewrite !bool_decide_eq_false_2.
  - simpl. rewrite Hs. unfold OrderedDict.setitem, OrderedDict.contains.
    by rewrite bool_decide_eq_false_2.
Qed.

Lemma exec_transition o c : transition c (exec o c).2.
Proof.
  destruct o as [a|a|]; simpl; [| |apply tr_reset].
  - rewrite is_in_cache_eq.
    destruct (get_set_index a c).1 as [s|e]; [|apply tr_none].
    unfold probe_outcome.
    destruct (cache c !! s) as [od|] eqn:Hs; [|apply tr_none].
    case_bool_decide; [by eapply tr_touch | apply tr_none].
  - rewrite add_to_cache_eq.
    destruct (get_set_index a c).1 as [s|e] eqn:Hidx; [|apply tr_none].
    apply get_set_index_home in Hidx. unfold insert_outcome.
    destruct (cache c !! s) as [od|] eqn:Hs; [|apply tr_none].
    case_bool_decide; [by eapply tr_touch|].
    destruct (Z.leb_spec (lines_per_set c) (OrderedDict.len od)).
    + destruct od as [|x rest]; [apply tr_none|].
      case_bool_decide; [by eapply tr_evict | by eapply tr_pop_only].
    + by eapply tr_append.
Qed.

End calls.

Section invariants.
Implicit Types (c : Cache) (m : gmap Z (list Z)) (od : list Z) (s t : Z).

Lemma resident_split m s od t :
  m !! s = Some od → t ∈ resident_of m ↔ t ∈ od ∨ elsewhere m s t.
Proof.
  intros Hs. rewrite elem_of_resident_of. split.
  - intros (s' & od' & Hs' & Ht). destruct (decide (s' = s)) as [->|Hne].
    + left. congruence.
    + right. by exists s', od'.
  - intros [Ht | (s' & od' & _ & Hs' & Ht)]; eauto.
Qed.

Lemma resident_insert m s od t :
  t ∈ resident_of (<[s := od]> m) ↔ t ∈ od ∨ elsewhere m s t.
Proof.
  rewrite (resident_split (<[s := od]> m) s od) by apply lookup_insert_eq.
  unfold elsewhere. split; (intros [?|(s' & od' & Hne & Hs' & Ht)]; [by left|]);
    right; exists s', od'; [rewrite lookup_insert_ne in Hs' by done
                           | rewrite lookup_insert_ne by done]; done.
Qed.

Lemma resident_empty_sets n : resident_of (empty_sets n) = ∅.
Proof.
  apply set_eq. intros t. rewrite elem_of_resident_of. split.
  - intros (s & od & Hs & Ht). apply empty_sets_lookup in Hs as ->.
    by apply elem_of_nil in Ht.
  - intros []%not_elem_of_empty.
Qed.

Lemma well_formed_empty ls nl assoc ns lps :
  well_formed (mkCache ls nl assoc ns lps (empty_sets ns) ∅).
Proof.
  split; simpl.
  - intros s od ->%empty_sets_lookup. constructor.
  - intros s od t ->%empty_sets_lookup []%elem_of_nil.
  - unfold resident_tags. simpl. by rewrite resident_empty_sets.
Qed.

(** Construction raises exactly when the associativity is neither 0 nor 1
    and leaves a remainder; a negative associativity takes the same branch as
    one greater than 1. *)
Lemma Cache_init_raises_iff ls nl assoc :
  __init__ ls nl assoc = Raise ValueError ↔
  assoc ≠ 0 ∧ assoc ≠ 1 ∧ nl mod assoc ≠ 0.
Proof.
  unfold __init__.
  destruct (Z.eqb_spec assoc 0); [split; [done | tauto]|].
  destruct (Z.eqb_spec assoc 1); [split; [done | tauto]|].
  destruct (Z.eqb_spec (nl mod assoc) 0); simpl; split; (done || tauto).
Qed.

Lemma Cache_init_raises_ValueError_only ls nl assoc e :
  __init__ ls nl assoc = Raise e → e = ValueError.
Proof. unfold __init__. repeat case_match; congruence. Qed.

Lemma Cache_init_well_formed ls nl assoc c :
  __init__ ls nl assoc = Ok c → well_formed c.
Proof.
  unfold __init__. repeat case_match; intros [= <-];
    apply well_formed_empty.
Qed.

Lemma transition_same_config c c' : transition c c' → same_config c c'.
Proof. destruct 1; by repeat split. Qed.

Lemma transition_well_formed c c' :
  well_formed c → transition c c' → well_formed c'.
Proof.
  intros [Hnd Hhome Hts] Htr.
  destruct Htr as [|s od t Hs Ht|s od t Hs Ht Hh Hlen|s x rest t Hs Ht Hh Hlen Hx
                  | |s x rest Hs Hx].
  - by split.
  - split; simpl.
    + intros s' od'. rewrite lookup_insert. case_decide as Hss.
      * intros [= <-]. apply NoDup_touch. eauto.
      * eauto.
    + intros s' od' t'. rewrite lookup_insert. case_decide as Hss.
      * intros [= <-] [Hin| ->]%elem_of_touch; subst s'; eauto.
      * apply Hhome.
    + rewrite Hts. unfold resident_tags. simpl. apply set_eq. intros t'.
      rewrite resident_insert, (resident_split _ s od) by done.
      rewrite elem_of_touch. split; [tauto|]. intros [[?| ->]|?]; tauto.
  - split; simpl.
    + intros s' od'. rewrite lookup_insert. case_decide as Hss.
      * intros [= <-]. apply NoDup_app. split_and!; [eauto | | apply NoDup_singleton].
        intros y Hy ->%list_elem_of_singleton. done.
      * eauto.
    + intros s' od' t'. rewrite lookup_insert. case_decide as Hss.
      * intros [= <-] [Hin| ->%list_elem_of_singleton]%elem_of_app;
          subst s'; eauto.
      * apply Hhome.
    + rewrite Hts. unfold resident_tags. simpl. apply set_eq. intros t'.
      rewrite elem_of_union, elem_of_singleton.
      rewrite resident_insert, (resident_split _ s od) by done.
      rewrite elem_of_app, list_elem_of_singleton. tauto.
  - assert (NoDup (x :: rest)) as [Hxr Hrest]%NoDup_cons by eauto.
    assert (¬ elsewhere (cache c) s x) as Hxe.
    { intros (s' & od' & Hne & Hs' & Hin). apply Hne.
      rewrite <- (Hhome s' od' x Hs' Hin).
      apply (Hhome s (x :: rest) x Hs). left. }
    split; simpl.
    + intros s' od'. rewrite lookup_insert. case_decide as Hss.
      * intros [= <-]. apply NoDup_app. split_and!; [done | | apply NoDup_singleton].
        intros y Hy ->%list_elem_of_singleton. apply Ht. by right.
      * eauto.
    + intros s' od' t'. rewrite lookup_insert. case_decide as Hss.
      * intros [= <-] [Hin| ->%list_elem_of_singleton]%elem_of_app;
          subst s'; [|done].
        apply (Hhome s (x :: rest) t' Hs). by right.
      * apply Hhome.
    + rewrite Hts. unfold resident_tags. simpl. apply set_eq. intros t'.
      rewrite elem_of_union, elem_of_singleton, elem_of_difference,
        elem_of_singleton.
      rewrite resident_insert, (resident_split _ s (x :: rest)) by done.
      rewrite elem_of_app, list_elem_of_singleton, elem_of_cons.
      split.
      * intros [->|[[[->|?]|?] Hne]]; tauto.
      * intros [[Hin| ->]|He]; [|tauto|].
        -- right. split; [tauto|]. by intros ->.
        -- right. split; [tauto|]. by intros ->.
  - apply well_formed_empty.
  - exfalso. apply Hx. rewrite Hts. unfold resident_tags.
    rewrite (resident_split _ s (x :: rest)) by done. left. left.
Qed.

Lemma transition_within_capacity c c' :
  0 ≤ lines_per_set c → well_formed c → within_capacity c →
  transition c c' → within_capacity c'.
Proof.
  intros Hlps [Hnd Hhome Hts] Hcap Htr.
  unfold within_capacity, OrderedDict.len in *.
  destruct Htr as [|s od t Hs Ht|s od t Hs Ht Hh Hlen|s x rest t Hs Ht Hh Hlen Hx
                  | |s x rest Hs Hx]; simpl; try done;
    unfold OrderedDict.len in *;
    try (intros s' od'; rewrite lookup_insert; case_decide as Hss;
         [intros [= <-]; subst s' | by apply Hcap]).
  - rewrite length_touch by eauto. by apply (Hcap s).
  - rewrite length_app. simpl. lia.
  - specialize (Hcap s _ Hs). rewrite length_app. simpl in *. lia.
  - by intros s' od' ->%empty_sets_lookup.
  - specialize (Hcap s _ Hs). simpl in *. lia.
Qed.

End invariants.

(** ** Reachable states *)

Section reachability.
Implicit Types (c : Cache).

Lemma reachable_same_config c0 c : reachable c0 c → same_config c0 c.
Proof.
  induction 1 as [|c o _ IH]; [by repeat split|].
  destruct (transition_same_config _ _ (exec_transition o c)) as (?&?&?&?&?).
  destruct IH as (?&?&?&?&?). repeat split; congruence.
Qed.

Lemma reachable_run_from c0 c os :
  reachable c0 c → reachable c0 (run os c).2.
Proof.
  revert c. induction os as [|o os IH]; intros c Hc; [done|]. simpl.
  pose proof (reach_step c0 c o Hc) as Hstep.
  destruct (exec o c) as [r c1]. specialize (IH c1 Hstep).
  by destruct (run os c1).
Qed.

Lemma reachable_run c0 os : reachable c0 (run os c0).2.
Proof. apply reachable_run_from, reach_init. Qed.

Lemma reachable_well_formed c0 c :
  well_formed c0 → reachable c0 c → well_formed c.
Proof.
  intros Hwf. induction 1 as [|c o _ IH]; [done|].
  eapply transition_well_formed; [exact IH | apply exec_transition].
Qed.

Lemma reachable_within_capacity c0 c :
  0 ≤ lines_per_set c0 → well_formed c0 → within_capacity c0 →
  reachable c0 c → within_capacity c.
Proof.
  intros Hlps Hwf Hcap. induction 1 as [|c o Hr IH]; [done|].
  eapply transition_within_capacity; [ | | exact IH | apply exec_transition].
  - destruct (reachable_same_config _ _ Hr) as (_&_&_&_&->). done.
  - by eapply reachable_well_formed.
Qed.

Lemma Cache_init_within_capacity ls nl assoc c :
  0 < nl → 0 ≤ assoc → __init__ ls nl assoc = Ok c →
  0 ≤ lines_per_set c ∧ within_capacity c.
Proof.
  intros Hnl Hassoc. unfold __init__, within_capacity.
  repeat case_match; intros [= <-]; simpl;
    (split; [lia|]); intros s od ->%empty_sets_lookup;
    unfold OrderedDict.len; simpl; lia.
Qed.

End reachability.

Section fully_associative.
Variables (ls N : Z).
Hypothesis ls_nonzero : ls ≠ 0.
Hypothesis N_positive : 0 < N.
Implicit Types (c : Cache) (od : list Z) (t a : Z).

Lemma lru_index a c od : lru_state ls N od c → (get_set_index a c).1 = Ok 0.
Proof.
  intros [Hls Ha _ _ _ _ _ _]. rewrite get_set_index_eq. simpl.
  unfold py_floordiv. rewrite Hls, Ha.
  by destruct (Z.eqb_spec ls 0).
Qed.

Lemma lru_state_touch t od c :
  lru_state ls N od c → t ∈ od →
  lru_state ls N (touch t od) (set_cache (<[0 := touch t od]> (cache c)) c).
Proof.
  intros [? ? ? ? Hs Ho Hts Hnd] Ht. split; simpl; try done.
  - apply lookup_insert_eq.
  - intros s Hne. rewrite lookup_insert_ne by done. by apply Ho.
  - rewrite Hts. apply set_eq. intros x.
    rewrite !elem_of_list_to_set, elem_of_touch.
    split; [tauto | intros [?| ->]; done].
  - by apply NoDup_touch.
Qed.

Lemma exec_Probe_lru a c od :
  lru_state ls N od c →
  ∃ c', exec (Probe a) c = ((lru_probe (a / ls) od).1, c') ∧
        lru_state ls N (lru_probe (a / ls) od).2 c'.
Proof.
  intros Hst. simpl. rewrite is_in_cache_eq, (lru_index a c od Hst).
  unfold probe_outcome, lru_probe.
  rewrite (lru_set _ _ _ _ Hst), (lru_line_size _ _ _ _ Hst).
  case_bool_decide as Ht; simpl; eexists; (split; [done|]); [|done].
  by apply lru_state_touch.
Qed.

Lemma exec_Insert_lru a c od :
  lru_state ls N od c →
  ∃ c', exec (Insert a) c = (Done, c') ∧
        lru_state ls N (lru_insert N (a / ls) od) c'.
Proof.
  intros Hst. simpl. rewrite add_to_cache_eq, (lru_index a c od Hst).
  unfold insert_outcome, lru_insert.
  rewrite (lru_set _ _ _ _ Hst), (lru_line_size _ _ _ _ Hst),
    (lru_lines _ _ _ _ Hst).
  case_bool_decide as Ht; simpl.
  { eexists. split; [done|]. by apply lru_state_touch. }
  destruct Hst as [? ? ? ? Hs Ho Hts Hnd].
  destruct (Z.leb_spec N (OrderedDict.len od)) as [Hfull|Hroom].
  - destruct od as [|x rest]; [unfold OrderedDict.len in Hfull; simpl in *; lia|].
    rewrite bool_decide_eq_true_2
      by (rewrite Hts, elem_of_list_to_set; left).
    simpl. eexists. split; [done|].
    apply NoDup_cons in Hnd as [Hx Hnd].
    apply not_elem_of_cons in Ht as [Htx Ht].
    split; simpl; try done.
    + apply lookup_insert_eq.
    + intros s Hne. rewrite lookup_insert_ne by done. by apply Ho.
    + rewrite Hts. apply set_eq. intros y.
      rewrite elem_of_union, elem_of_difference, !elem_of_singleton,
        !elem_of_list_to_set, elem_of_app, elem_of_cons,
        list_elem_of_singleton.
      split; [tauto|]. intros [Hy|?]; [|tauto].
      right. split; [tauto|]. by intros ->.
    + apply NoDup_app. split_and!; [done| |apply NoDup_singleton].
      by intros y Hy ->%list_elem_of_singleton.
  - eexists. split; [done|]. split; simpl; try done.
    + apply lookup_insert_eq.
    + intros s Hne. rewrite lookup_insert_ne by done. by apply Ho.
    + rewrite Hts. apply set_eq. intros y.
      rewrite elem_of_union, !elem_of_singleton,
        !elem_of_list_to_set, elem_of_app, list_elem_of_singleton. tauto.
    + apply NoDup_app. split_and!; [done| |apply NoDup_singleton].
      by intros y Hy ->%list_elem_of_singleton.
Qed.

Lemma exec_Reset_lru c od :
  lru_state ls N od c →
  ∃ c', exec Reset c = (Done, c') ∧ lru_state ls N [] c'.
Proof.
  intros [? ? Hns ? Hs Ho Hts Hnd]. simpl. eexists. split; [done|].
  split; simpl; try done.
  - rewrite Hns. reflexivity.
  - intros s Hne. rewrite Hns. apply eq_None_not_Some.
    rewrite empty_sets_dom. lia.
  - constructor.
Qed.

(** The cache object refines the list, call by call. *)
Lemma run_lru os c od :
  lru_state ls N od c →
  ∃ c', run os c = ((lru_run ls N os od).1, c') ∧
        lru_state ls N (lru_run ls N os od).2 c'.
Proof.
  revert c od. induction os as [|o os IH]; intros c od Hst.
  { exists c. by split. }
  assert (∃ c', exec o c = ((lru_exec ls N o od).1, c') ∧
                lru_state ls N (lru_exec ls N o od).2 c')
    as (c1 & Hexec & Hst1).
  { destruct o as [a|a|]; simpl lru_exec.
    - by apply exec_Probe_lru.
    - by apply exec_Insert_lru.
    - by eapply exec_Reset_lru. }
  cbn [run lru_run]. rewrite Hexec.
  destruct (lru_exec ls N o od) as [r od1]. simpl in *.
  destruct (IH c1 od1 Hst1) as (c2 & Hrun & Hst2). rewrite Hrun.
  destruct (lru_run ls N os od1) as [rs od2]. simpl in *. by exists c2.
Qed.

Lemma Cache_init_lru c : __init__ ls N 0 = Ok c → lru_state ls N [] c.
Proof.
  intros [= <-]. split; simpl; try done.
  - intros s Hne. apply eq_None_not_Some. rewrite empty_sets_dom. lia.
  - constructor.
Qed.

End fully_associative.

(** ** Filling an LRU list, touching all of it, then overflowing it *)

Section lru_lists.
Variables (ls N : Z).
Implicit Types (od ts : list Z) (t a : Z) (os : list op).

Lemma lru_run_cons o os od :
  lru_run ls N (o :: os) od =
    ((lru_exec ls N o od).1 :: (lru_run ls N os (lru_exec ls N o od).2).1,
     (lru_run ls N os (lru_exec ls N o od).2).2).
Proof.
  simpl. destruct (lru_exec ls N o od) as [r od1]. simpl.
  by destruct (lru_run ls N os od1).
Qed.

Lemma lru_run_app os1 os2 od :
  lru_run ls N (os1 ++ os2) od =
    ((lru_run ls N os1 od).1 ++ (lru_run ls N os2 (lru_run ls N os1 od).2).1,
     (lru_run ls N os2 (lru_run ls N os1 od).2).2).
Proof.
  revert od. induction os1 as [|o os1 IH]; intros od; simpl.
  - by destruct (lru_run ls N os2 od).
  - destruct (lru_exec ls N o od) as [r od1]. rewrite IH.
    by destruct (lru_run ls N os1 od1).
Qed.

Lemma lru_run_inserts addrs od :
  NoDup (od ++ tags_of ls addrs) →
  Z.of_nat (length (od ++ tags_of ls addrs)) ≤ N →
  lru_run ls N (Insert <$> addrs) od =
    (replicate (length addrs) Done, od ++ tags_of ls addrs).
Proof.
  revert od. induction addrs as [|a addrs IH]; intros od Hnd Hlen; simpl.
  { by rewrite app_nil_r. }
  unfold lru_insert. simpl in Hnd, Hlen.
  assert (a / ls ∉ od) as Hnew.
  { apply NoDup_app in Hnd as (_ & Hdisj & _). intros Hin.
    apply (Hdisj _ Hin). left. }
  rewrite bool_decide_eq_false_2 by done.
  rewrite length_app in Hlen. simpl in Hlen.
  destruct (Z.leb_spec N (OrderedDict.len od)) as [Hfull|_];
    [unfold OrderedDict.len in Hfull; lia|].
  rewrite IH.
  - by rewrite <- app_assoc.
  - by rewrite <- app_assoc.
  - rewrite <- app_assoc, length_app. simpl. lia.
Qed.

Lemma lru_run_probes_resident ps od :
  (∀ p, p ∈ ps → p / ls ∈ od) →
  lru_run ls N (Probe <$> ps) od =
    (replicate (length ps) Hit, touch_all od (tags_of ls ps)).
Proof.
  revert od. induction ps as [|p ps IH]; intros od Hres; [done|]. simpl.
  unfold lru_probe. rewrite bool_decide_eq_true_2 by (apply Hres; left).
  rewrite IH; [done|]. intros q Hq. apply elem_of_touch. left.
  apply Hres. by right.
Qed.

Lemma filter_all (P : Z → Prop) `{!∀ x, Decision (P x)} od :
  (∀ x, x ∈ od → P x) → filter P od = od.
Proof.
  induction od as [|x od IH]; intros HP; [done|].
  rewrite filter_cons_True by (apply HP; left).
  f_equal. apply IH. intros y Hy. apply HP. by right.
Qed.

Lemma filter_none (P : Z → Prop) `{!∀ x, Decision (P x)} od :
  (∀ x, x ∈ od → ¬ P x) → filter P od = [].
Proof.
  induction od as [|x od IH]; intros HP; [done|].
  rewrite filter_cons_False by (apply HP; left).
  apply IH. intros y Hy. apply HP. by right.
Qed.

(** Touching distinct tags one after the other lines them up at the
    recent end, in the order they were touched. *)
Lemma touch_all_order ts od :
  NoDup ts → touch_all od ts = filter (λ x, x ∉ ts) od ++ ts.
Proof.
  revert od. induction ts as [|t ts IH]; intros od Hnd; simpl.
  { rewrite app_nil_r. symmetry. apply filter_all.
    intros x _. apply not_elem_of_nil. }
  apply NoDup_cons in Hnd as [Ht Hnd]. unfold touch_all in *. simpl.
  rewrite IH by done. unfold touch.
  rewrite filter_app, list_filter_filter.
  rewrite (filter_all (λ x, x ∉ ts) [t])
    by (by intros x ->%list_elem_of_singleton).
  rewrite <- app_assoc. simpl. f_equal.
  apply list_filter_iff. intros x. rewrite not_elem_of_cons. tauto.
Qed.

Lemma touch_all_permutation ts od :
  NoDup ts → ts ≡ₚ od → touch_all od ts = ts.
Proof.
  intros Hnd Hperm. rewrite touch_all_order by done.
  rewrite filter_none; [done|]. intros x Hx Hnot. apply Hnot.
  by rewrite Hperm.
Qed.

(** Later probes answer by membership: hits reorder, nothing leaves. *)
Lemma lru_run_probes_membership qs od od' :
  (∀ x, x ∈ od' ↔ x ∈ od) →
  (lru_run ls N (Probe <$> qs) od').1 =
    (λ q, if bool_decide (q / ls ∈ od) then Hit else Miss) <$> qs.
Proof.
  revert od'. induction qs as [|q qs IH]; intros od' Hsame; [done|].
  rewrite !fmap_cons, lru_run_cons. cbn [fst lru_exec]. unfold lru_probe.
  destruct (decide (q / ls ∈ od)) as [Hq|Hq].
  - rewrite !bool_decide_eq_true_2 by (done || by apply Hsame).
    cbn [fst snd]. f_equal. apply IH. intros x. rewrite elem_of_touch, Hsame.
    split; [intros [?| ->]; done | tauto].
  - rewrite !bool_decide_eq_false_2 by (done || by rewrite Hsame).
    cbn [fst snd]. f_equal. by apply IH.
Qed.

(** The whole scenario on the list. *)
Lemma lru_fill_touch_overflow addrs probes later b :
  0 < N → Z.of_nat (length addrs) = N →
  NoDup (tags_of ls addrs) → probes ≡ₚ addrs →
  b / ls ∉ tags_of ls addrs → later ⊆ addrs ++ [b] →
  lru_run ls N ((Insert <$> addrs) ++ (Probe <$> probes) ++ [Insert b]) [] =
    (replicate (length addrs) Done ++ replicate (length probes) Hit ++ [Done],
     tail (tags_of ls probes) ++ [b / ls]) ∧
  (lru_run ls N (Probe <$> later) (tail (tags_of ls probes) ++ [b / ls])).1 =
    (λ q, if bool_decide (q / ls = hd 0 probes / ls) then Miss else Hit)
      <$> later.
Proof.
  intros HN Hlen Hnd Hperm Hb Hlater.
  assert (tags_of ls probes ≡ₚ tags_of ls addrs) as Htperm
    by (unfold tags_of; by rewrite Hperm).
  assert (NoDup (tags_of ls probes)) as Hndp by (by rewrite Htperm).
  assert (length (tags_of ls probes) = length addrs) as Hlenp.
  { rewrite Htperm. unfold tags_of. by rewrite length_fmap. }
  split.
  - rewrite !lru_run_app. rewrite lru_run_inserts; simpl; [|done|];
      [|unfold tags_of; rewrite length_fmap; lia].
    rewrite lru_run_probes_resident.
    2:{ intros p Hp. rewrite <- Htperm. unfold tags_of.
        by apply (list_elem_of_fmap_2 (λ a, a / ls)). }
    simpl. rewrite touch_all_permutation by done.
    unfold lru_insert.
    rewrite bool_decide_eq_false_2 by (by rewrite Htperm).
    destruct (Z.leb_spec N (OrderedDict.len (tags_of ls probes))) as [_|Hroom];
      [done|].
    unfold OrderedDict.len in Hroom. lia.
  - rewrite (lru_run_probes_membership later
               (tail (tags_of ls probes) ++ [b / ls])) by done.
    apply list_fmap_ext. intros i q Hq%list_elem_of_lookup_2.
    destruct probes as [|p0 probes'];
      [simpl in Hlenp; lia|].
    simpl in *. apply NoDup_cons in Hndp as [Hp0 Hndp].
    assert (q / ls ∈ (p0 / ls) :: tags_of ls probes' ∨ q = b) as Hcases.
    { apply Hlater in Hq.
      apply elem_of_app in Hq as [Hq| ->%list_elem_of_singleton]; [|by right].
      left. unfold tags_of in Htperm. simpl in Htperm. rewrite Htperm.
      by apply (list_elem_of_fmap_2 (λ a, a / ls)). }
    assert (b / ls ≠ p0 / ls) as Hbp.
    { intros Heq. apply Hb. rewrite <- Htperm. simpl. rewrite Heq. left. }
    destruct (decide (q / ls = p0 / ls)) as [Heq|Hne].
    + rewrite (bool_decide_eq_true_2 (q / ls = _)) by done.
      rewrite bool_decide_eq_false_2; [done|].
      rewrite Heq, elem_of_app, list_elem_of_singleton. intros [?|?]; congruence.
    + rewrite (bool_decide_eq_false_2 (q / ls = _)) by done.
      rewrite bool_decide_eq_true_2; [done|].
      rewrite elem_of_app, list_elem_of_singleton.
      destruct Hcases as [[?|?]%elem_of_cons| ->]; tauto.
Qed.

End lru_lists.

(** ** Running generators *)

Section generators.
Context {A B : Type}.
Implicit Types (g : RandomState) (ys : list Z).

Lemma bind_ok (m : Gen A) (f : A → Gen B) g ys a g' :
  m g = (ys, Ok a, g') →
  (m ≫= f) g = (ys ++ yielded (f a g'), ending (f a g'), (f a g').2).
Proof.
  intros Hm. unfold mbind, Gen_bind, yielded, ending. rewrite Hm.
  by destruct (f a g') as [[zs r] g''].
Qed.

Lemma bind_raise (m : Gen A) (f : A → Gen B) g ys e g' :
  m g = (ys, Raise e, g') → (m ≫= f) g = (ys, Raise e, g').
Proof. intros Hm. unfold mbind, Gen_bind. by rewrite Hm. Qed.

End generators.

Section loops.
Context {S : Type}.
Implicit Types (g : RandomState) (ys : list Z).

(** A loop whose body yields one address each time round and keeps an
    invariant of the local variables yields one address per element. *)
Lemma for_each_invariant (I : S → Prop) (P : Z → Prop) xs
    (body : Z → S → Gen S) s g :
  I s →
  (∀ i s g, i ∈ xs → I s →
     ∃ a s' g', body i s g = ([a], Ok s', g') ∧ P a ∧ I s') →
  ∃ ys s' g', for_each xs body s g = (ys, Ok s', g') ∧
              length ys = length xs ∧ Forall P ys ∧ I s'.
Proof.
  revert s g. induction xs as [|i xs IH]; intros s g Hs Hbody.
  { exists [], s, g. by repeat split. }
  destruct (Hbody i s g) as (a & s1 & g1 & Hstep & Ha & Hs1); [left|done|].
  destruct (IH s1 g1) as (ys & s2 & g2 & Hrest & Hlen & Hys & Hs2); [done| |].
  { intros j s' g' Hj. apply Hbody. by right. }
  exists (a :: ys), s2, g2. simpl. rewrite (bind_ok _ _ _ _ _ _ Hstep).
  unfold yielded, ending. rewrite Hrest. simpl.
  repeat split; [by f_equal | by constructor | done].
Qed.

End loops.

Section generator_facts.
Implicit Types (g : RandomState) (M L : Z).

(** A loop without local variables whose body yields [f i] and draws
    nothing yields the image of its range. *)
Lemma for_each_image (f : Z → Z) xs (body : Z → unit → Gen unit) g :
  (∀ i g, i ∈ xs → body i tt g = ([f i], Ok tt, g)) →
  for_each xs body tt g = (f <$> xs, Ok tt, g).
Proof.
  induction xs as [|i xs IH]; intros Hbody; [done|]. simpl.
  rewrite (bind_ok _ _ _ _ _ _ (Hbody i g ltac:(left))).
  unfold yielded, ending. rewrite IH; [done|].
  intros j g' Hj. apply Hbody. by right.
Qed.

Lemma randint_ok a b g :
  a ≤ b → ∃ v, randint a b g = ([], Ok v, advance g) ∧ a ≤ v ≤ b.
Proof.
  intros Hab. unfold randint. destruct (Z.ltb_spec b a); [lia|].
  eexists. split; [done|].
  pose proof (Z.mod_pos_bound (raw g (pos g)) (b - a + 1)). lia.
Qed.

Lemma random_ok g : ∃ u, random g = ([], Ok u, advance g).
Proof. by eexists. Qed.

Lemma validate_common_params_ok M L g :
  0 < M → 0 < L → _validate_common_params M L g = ([], Ok tt, g).
Proof.
  intros HM HL. unfold _validate_common_params.
  destruct (Z.leb_spec M 0); [lia|]. by destruct (Z.leb_spec L 0); [lia|].
Qed.

Lemma validate_common_params_raise M L g :
  M ≤ 0 ∨ L ≤ 0 →
  _validate_common_params M L g = ([], Raise ValueError, g).
Proof.
  intros H. unfold _validate_common_params.
  destruct (Z.leb_spec M 0); [done|]. by destruct (Z.leb_spec L 0); [|lia].
Qed.

(** What the stride and loop generators yield, in closed form. *)
Lemma StridePattern_yields M L stride g :
  0 < M → 0 < L → 1 ≤ stride →
  ∃ start, 0 ≤ start ≤ M ∧
    StridePattern.generate_sequence M L stride g =
      ((λ i, (start + i * stride) mod (M + 1)) <$> seqZ 0 L, Ok tt, advance g).
Proof.
  intros HM HL Hs. unfold StridePattern.generate_sequence.
  destruct (randint_ok 0 M g) as (start & Hstart & Hrange); [lia|].
  exists start. split; [done|].
  rewrite (bind_ok _ _ _ _ _ _ (validate_common_params_ok M L g HM HL)).
  destruct (Z.ltb_spec stride 1); [lia|].
  rewrite (bind_ok _ _ g [] tt g) by done.
  rewrite (bind_ok _ _ _ _ _ _ Hstart).
  unfold for_range, yielded, ending.
  rewrite (for_each_image (λ i, (start + i * stride) mod (M + 1))); [done|].
  intros i g' _. unfold py_mod. destruct (Z.eqb_spec (M + 1) 0); [lia|].
  reflexivity.
Qed.

Lemma LoopPattern_yields M L loop_size g :
  0 < M → 0 < L → 1 ≤ loop_size ≤ M →
  ∃ start, 0 ≤ start ≤ M - loop_size ∧
    LoopPattern.generate_sequence M L loop_size g =
      ((λ i, start + i mod loop_size) <$> seqZ 0 L, Ok tt, advance g).
Proof.
  intros HM HL Hs. unfold LoopPattern.generate_sequence.
  destruct (randint_ok 0 (Z.max 0 (M - loop_size)) g)
    as (start & Hstart & Hrange); [lia|].
  exists start. split; [lia|].
  rewrite (bind_ok _ _ _ _ _ _ (validate_common_params_ok M L g HM HL)).
  destruct (Z.ltb_spec loop_size 1); [lia|].
  destruct (Z.ltb_spec M loop_size); [lia|]. simpl orb. cbv iota.
  rewrite (bind_ok _ _ g [] tt g) by done.
  rewrite (bind_ok _ _ _ _ _ _ Hstart).
  unfold for_range, yielded, ending.
  rewrite (for_each_image (λ i, start + i mod loop_size)); [done|].
  intros i g' _. unfold py_mod. destruct (Z.eqb_spec loop_size 0); [lia|].
  reflexivity.
Qed.

End generator_facts.

(** ** Every generator yields [length] addresses of [0..max_address] *)

Section emission.
Variables (M L : Z).
Hypothesis M_positive : 0 < M.
Hypothesis L_positive : 0 < L.
Implicit Types (g : RandomState).

(** Past the validation, a draw for the initial local variables and a loop
    whose body yields one address in range each time round. *)
Lemma emits_for_range {S : Type} (I : S → Prop) (body : Z → S → Gen S) s g :
  I s →
  (∀ i s g, I s →
     ∃ a s' g', body i s g = ([a], Ok s', g') ∧ in_range M a ∧ I s') →
  emits M L ((for_range L body s;; mret tt) g).
Proof.
  intros Hs Hbody.
  destruct (for_each_invariant I (in_range M) (seqZ 0 L) body s g)
    as (ys & s' & g' & Hloop & Hlen & Hys & _); [done|by eauto|].
  unfold for_range. rewrite (bind_ok _ _ _ _ _ _ Hloop).
  unfold emits, yielded, ending. simpl. rewrite app_nil_r.
  by rewrite Hlen, length_seqZ.
Qed.

Lemma emits_image (f : Z → Z) g :
  (∀ i, 0 ≤ i < L → in_range M (f i)) →
  emits M L (f <$> seqZ 0 L, Ok tt, g).
Proof.
  intros Hf. unfold emits, yielded, ending. simpl.
  rewrite length_fmap, length_seqZ. repeat split.
  apply Forall_fmap, Forall_forall. intros i Hi%elem_of_seqZ.
  apply Hf. lia.
Qed.

Lemma StridePattern_emits stride g :
  1 ≤ stride → emits M L (StridePattern.generate_sequence M L stride g).
Proof.
  intros Hs.
  destruct (StridePattern_yields M L stride g) as (start & _ & ->); try done.
  apply emits_image. intros i _. unfold in_range.
  pose proof (Z.mod_pos_bound (start + i * stride) (M + 1)). lia.
Qed.

Lemma LoopPattern_emits loop_size g :
  1 ≤ loop_size ≤ M → emits M L (LoopPattern.generate_sequence M L loop_size g).
Proof.
  intros Hs.
  destruct (LoopPattern_yields M L loop_size g) as (start & ? & ->); try done.
  apply emits_image. intros i _. unfold in_range.
  pose proof (Z.mod_pos_bound i loop_size). lia.
Qed.

Lemma RandomPattern_emits g : emits M L (RandomPattern.generate_sequence M L g).
Proof.
  unfold RandomPattern.generate_sequence.
  rewrite (bind_ok _ _ _ _ _ _ (validate_common_params_ok M L g M_positive L_positive)).
  unfold yielded, ending. simpl app.
  destruct (for_each_invariant (λ _ : unit, True) (in_range M) (seqZ 0 L)
              (λ _ _, address ← randint 0 M; yield address) tt g)
    as (ys & s' & g' & Hloop & Hlen & Hys & _); [done| |].
  { intros i s g1 _ _. destruct (randint_ok 0 M g1) as (v & Hv & ?); [lia|].
    exists v, tt, (advance g1). rewrite (bind_ok _ _ _ _ _ _ Hv). done. }
  unfold for_range. rewrite Hloop. destruct s'.
  unfold emits, yielded, ending. simpl. by rewrite Hlen, length_seqZ.
Qed.

Lemma SequentialWithJumpsPattern_emits epsilon g :
  float_le (float_of_Z 0) epsilon = true →
  float_le epsilon (float_of_Z 1) = true →
  emits M L (SequentialWithJumpsPattern.generate_sequence M L epsilon g).
Proof.
  intros H0 H1. unfold SequentialWithJumpsPattern.generate_sequence.
  rewrite (bind_ok _ _ _ _ _ _ (validate_common_params_ok M L g M_positive L_positive)).
  rewrite H0, H1. simpl andb. cbv iota.
  rewrite (bind_ok _ _ g [] tt g) by done.
  destruct (randint_ok 0 M g) as (start & Hstart & Hrange); [lia|].
  rewrite (bind_ok _ _ _ _ _ _ Hstart).
  unfold yielded at 1 2 3, ending at 1 2. simpl app.
  apply (emits_for_range (λ _, True)); [done|].
  intros _ cur g1 _. destruct (random_ok g1) as (u & Hu).
  rewrite (bind_ok _ _ _ _ _ _ Hu). unfold yielded, ending.
  destruct (float_lt u epsilon).
  - destruct (randint_ok 0 M (advance g1)) as (v & Hv & ?); [lia|].
    exists v, v, (advance (advance g1)).
    rewrite (bind_ok _ _ _ _ _ _ Hv). done.
  - unfold py_mod. destruct (Z.eqb_spec (M + 1) 0); [lia|].
    exists ((cur + 1) mod (M + 1)), ((cur + 1) mod (M + 1)), (advance g1).
    split; [done|]. split; [|done]. unfold in_range.
    pose proof (Z.mod_pos_bound (cur + 1) (M + 1)). lia.
Qed.

Lemma StackPattern_emits stack_size g :
  0 ≤ stack_size → emits M L (StackPattern.generate_sequence M L stack_size g).
Proof.
  intros Hs. unfold StackPattern.generate_sequence.
  rewrite (bind_ok _ _ _ _ _ _ (validate_common_params_ok M L g M_positive L_positive)).
  destruct (Z.ltb_spec stack_size 0); [lia|].
  rewrite (bind_ok _ _ g [] tt g) by done.
  destruct (randint_ok StackPattern._STACK_HEADROOM
              (Z.max StackPattern._STACK_HEADROOM
                 (M - StackPattern._STACK_HEADROOM)) g)
    as (sp0 & Hsp0 & _); [lia|].
  rewrite (bind_ok _ _ _ _ _ _ Hsp0).
  unfold yielded at 1 2 3, ending at 1 2. simpl app.
  apply (emits_for_range (λ _, True)); [done|].
  intros _ [sp depth] g1 _. destruct (random_ok g1) as (u & Hu).
  rewrite (bind_ok _ _ _ _ _ _ Hu). unfold yielded, ending.
  assert (∀ x, in_range M (Z.max 0 (Z.min x M))) as Hclamp
    by (intros x; unfold in_range; lia).
  destruct (randint_ok StackPattern._STACK_MOVE_MIN
              StackPattern._STACK_MOVE_MAX (advance g1))
    as (move & Hmove & _); [done|].
  destruct (float_lt u StackPattern._PUSH_PROBABILITY
            && (depth <? StackPattern._MAX_STACK_DEPTH)).
  - rewrite (bind_ok _ _ (advance g1) [] (sp - move, depth + 1)
               (advance (advance g1)))
      by (by rewrite (bind_ok _ _ _ _ _ _ Hmove)).
    eexists _, _, _. split; [reflexivity|]. split; [apply Hclamp | done].
  - destruct (0 <? depth).
    + rewrite (bind_ok _ _ (advance g1) [] (sp + move, depth - 1)
                 (advance (advance g1)))
        by (by rewrite (bind_ok _ _ _ _ _ _ Hmove)).
      eexists _, _, _. split; [reflexivity|]. split; [apply Hclamp | done].
    + eexists _, _, _. split; [reflexivity|]. split; [apply Hclamp | done].
Qed.

Lemma HeapPattern_emits g : emits M L (HeapPattern.generate_sequence M L g).
Proof.
  unfold HeapPattern.generate_sequence.
  rewrite (bind_ok _ _ _ _ _ _ (validate_common_params_ok M L g M_positive L_positive)).
  rewrite (bind_ok _ _ g [] (M / 2) g) by done.
  assert (0 ≤ M / 2 ≤ M) as Hhalf.
  { split; [apply Z.div_pos; lia | apply Z.div_le_upper_bound; lia]. }
  destruct (randint_ok 0
              (Z.max 0 (M - Z.min HeapPattern._DEFAULT_MAX_HEAP_SIZE (M / 2))) g)
    as (base & Hbase & Hrange); [lia|].
  rewrite (bind_ok _ _ _ _ _ _ Hbase).
  unfold yielded at 1 2 3 4, ending at 1 2 3. simpl app.
  apply (emits_for_range (λ offset, 0 ≤ offset)); [done|].
  intros _ offset g1 Hoff. destruct (random_ok g1) as (u & Hu).
  rewrite (bind_ok _ _ _ _ _ _ Hu). unfold yielded, ending.
  destruct (float_lt u HeapPattern._ALLOCATION_PROBABILITY).
  - destruct (randint_ok HeapPattern._ALLOC_MIN HeapPattern._ALLOC_MAX
                (advance g1)) as (size & Hsize & Hsz); [done|].
    unfold HeapPattern._ALLOC_MIN in Hsz.
    rewrite (bind_ok _ _ (advance g1) [] (offset + size)
               (advance (advance g1)))
      by (by rewrite (bind_ok _ _ _ _ _ _ Hsize)).
    eexists _, _, _. split; [reflexivity|]. unfold in_range. lia.
  - destruct (randint_ok 0 (Z.max 1 offset) (advance g1))
      as (back & Hback & ?); [lia|].
    rewrite (bind_ok _ _ _ _ _ _ Hback).
    eexists _, _, _. split; [reflexivity|]. unfold in_range. lia.
Qed.

End emission.

(** ** Parameter bounds *)

Lemma within_or_violates p M : within_bound p M ∨ violates_bound p M.
Proof.
  destruct p as [eps|ls| |st|ss|]; unfold within_bound, violates_bound;
    try lia; try tauto.
  destruct (float_le (float_of_Z 0) eps), (float_le eps (float_of_Z 1)); auto.
Qed.

Lemma generate_sequence_emits p M L g :
  valid_params p M L → emits M L (generate_sequence p M L g).
Proof.
  intros (HM & HL & Hp). destruct p as [eps|ls| |st|ss|]; simpl in *.
  - destruct Hp. by apply SequentialWithJumpsPattern_emits.
  - by apply LoopPattern_emits.
  - by apply RandomPattern_emits.
  - by apply StridePattern_emits.
  - by apply StackPattern_emits.
  - by apply HeapPattern_emits.
Qed.

(** * Lemmas for the further properties *)

(** ** Operational caches *)

Section operational_caches.
Implicit Types (c : Cache) (od : list Z) (s t a : Z).

Lemma Cache_init_operational ls nl assoc c :
  ls ≠ 0 → 0 < nl → 0 ≤ assoc → __init__ ls nl assoc = Ok c → operational c.
Proof.
  intros Hls Hnl Hassoc. unfold __init__.
  destruct (Z.eqb_spec assoc 0) as [->|H0].
  { intros [= <-]. split; simpl; try done; try lia. apply empty_sets_dom. }
  destruct (Z.eqb_spec assoc 1) as [->|H1].
  { intros [= <-]. split; simpl; try done; try lia. apply empty_sets_dom. }
  destruct (Z.eqb_spec (nl mod assoc) 0) as [Hm|Hm]; simpl; [|done].
  intros [= <-].
  assert (nl = assoc * (nl / assoc)) as Hdiv
    by (rewrite (Z.div_mod nl assoc) at 1 by lia; lia).
  assert (0 < nl / assoc) as Hpos by nia.
  split; simpl; try done; try lia. apply empty_sets_dom.
Qed.

Lemma transition_operational c c' :
  operational c → transition c c' → operational c'.
Proof.
  intros [Hls Hns Hlps Hkeys Hsingle Hprod] Htr.
  destruct Htr as [|s od t Hs Ht|s od t Hs Ht Hh Hlen|s x rest t Hs Ht Hh Hlen Hx
                  | |s x rest Hs Hx]; split; simpl; try done;
    try (intros s'; rewrite <- Hkeys, lookup_insert; case_decide; subst;
         [split; [by rewrite Hs | eauto] | done]).
  apply empty_sets_dom.
Qed.

Lemma reachable_operational c0 c :
  operational c0 → reachable c0 c → operational c.
Proof.
  intros Hop. induction 1 as [|c o _ IH]; [done|].
  eapply transition_operational; [exact IH | apply exec_transition].
Qed.

Lemma home_set_range c t :
  operational c → 0 ≤ home_set c t < num_sets c.
Proof.
  intros Hop. unfold home_set. pose proof (op_num_sets _ Hop).
  destruct (Z.eqb_spec (associativity c) 0); [lia|].
  apply Z.mod_pos_bound. lia.
Qed.

Lemma get_set_index_operational a c :
  operational c → get_set_index a c = (Ok (home_set c (tag_of c a)), c).
Proof.
  intros Hop. rewrite get_set_index_eq. unfold py_floordiv, py_mod, home_set, tag_of.
  destruct (Z.eqb_spec (line_size c) 0); [by destruct (op_line_size _ Hop)|].
  destruct (Z.eqb_spec (associativity c) 0); [done|].
  pose proof (op_num_sets _ Hop). by destruct (Z.eqb_spec (num_sets c) 0); [lia|].
Qed.

Lemma home_set_lookup c t :
  operational c → ∃ od, cache c !! home_set c t = Some od.
Proof.
  intros Hop. apply (op_keys _ Hop), home_set_range, Hop.
Qed.

(** A probe of an operational cache: the answer and the new state. *)
Lemma is_in_cache_operational a c od :
  operational c → cache c !! home_set c (tag_of c a) = Some od →
  is_in_cache a c =
    if bool_decide (tag_of c a ∈ od)
    then (Ok true,
          set_cache (<[home_set c (tag_of c a) := touch (tag_of c a) od]>
                       (cache c)) c)
    else (Ok false, c).
Proof.
  intros Hop Hs. rewrite is_in_cache_eq, get_set_index_operational by done.
  simpl. unfold probe_outcome. fold (tag_of c a). by rewrite Hs.
Qed.

(** An insert into an operational, well-formed cache succeeds; the set of
    the address becomes what the LRU list discipline says and no other set
    changes. *)
Lemma add_to_cache_operational a c od :
  operational c → well_formed c →
  cache c !! home_set c (tag_of c a) = Some od →
  ∃ c', add_to_cache a c = (Ok tt, c') ∧
        cache c' = <[home_set c (tag_of c a) :=
                       lru_insert (lines_per_set c) (tag_of c a) od]> (cache c).
Proof.
  intros Hop Hwf Hs. rewrite add_to_cache_eq, get_set_index_operational by done.
  simpl. unfold insert_outcome, lru_insert. fold (tag_of c a). rewrite Hs.
  case_bool_decide as Ht; [by eexists|].
  destruct (Z.leb_spec (lines_per_set c) (OrderedDict.len od)) as [Hfull|Hroom];
    [|by eexists].
  destruct od as [|x rest].
  { pose proof (op_lines_per_set _ Hop). unfold OrderedDict.len in Hfull.
    simpl in Hfull. lia. }
  rewrite bool_decide_eq_true_2; [by eexists|].
  rewrite (wf_tag_set _ Hwf). unfold resident_tags.
  apply elem_of_resident_of. eexists _, _. split; [exact Hs | left].
Qed.

Lemma elem_of_lru_insert N t x od :
  x ∈ lru_insert N t od → x = t ∨ x ∈ od.
Proof.
  unfold lru_insert. case_bool_decide.
  { intros [?| ->]%elem_of_touch; auto. }
  destruct (N <=? OrderedDict.len od);
    intros [Hx| ->%list_elem_of_singleton]%elem_of_app; auto.
  right. destruct od; [done|]. by right.
Qed.

Lemma lru_insert_last N t od : ∃ pre, lru_insert N t od = pre ++ [t].
Proof.
  unfold lru_insert, touch. case_bool_decide; [by eexists|].
  destruct (N <=? OrderedDict.len od); by eexists.
Qed.

Lemma lru_insert_elem N t od : t ∈ lru_insert N t od.
Proof.
  destruct (lru_insert_last N t od) as [pre ->].
  apply elem_of_app. right. left.
Qed.

End operational_caches.

(** ** Caches ready for use *)

Section ready_caches.
Implicit Types (c : Cache) (od : list Z) (s t a : Z).

Lemma Cache_init_ready ls nl assoc c :
  ls ≠ 0 → 0 < nl → 0 ≤ assoc → __init__ ls nl assoc = Ok c → ready c.
Proof.
  intros Hls Hnl Hassoc Hinit. split_and!.
  - by eapply Cache_init_operational.
  - by eapply Cache_init_well_formed.
  - by eapply Cache_init_within_capacity.
Qed.

Lemma transition_ready c c' : ready c → transition c c' → ready c'.
Proof.
  intros (Hop & Hwf & Hcap) Htr. split_and!.
  - by eapply transition_operational.
  - by eapply transition_well_formed.
  - eapply transition_within_capacity; try done.
    pose proof (op_lines_per_set _ Hop). lia.
Qed.

Lemma exec_ready o c : ready c → ready (exec o c).2.
Proof. intros Hr. eapply transition_ready; [done | apply exec_transition]. Qed.

Lemma reachable_ready c0 c : ready c0 → reachable c0 c → ready c.
Proof.
  intros Hr. induction 1 as [|c o _ IH]; [done | by apply exec_ready].
Qed.

Lemma Cache_init_line_size ls nl assoc c :
  __init__ ls nl assoc = Ok c →
  line_size c = ls ∧ num_lines c = nl ∧ associativity c = assoc.
Proof. unfold __init__. repeat case_match; by intros [= <-]. Qed.

Lemma reachable_ready_init ls nl assoc c0 c :
  ls ≠ 0 → 0 < nl → 0 ≤ assoc → __init__ ls nl assoc = Ok c0 →
  reachable c0 c →
  ready c ∧ line_size c = ls ∧ num_lines c = nl ∧ associativity c = assoc.
Proof.
  intros Hls Hnl Hassoc Hinit Hreach.
  destruct (Cache_init_line_size _ _ _ _ Hinit) as (? & ? & ?).
  destruct (reachable_same_config _ _ Hreach) as (? & ? & ? & _).
  split; [|repeat split; congruence].
  eapply reachable_ready; [by eapply Cache_init_ready | done].
Qed.

(** A probe answers by membership in the set of the address. *)
Lemma probe_ready a c :
  ready c →
  ∃ od, cache c !! home_set c (tag_of c a) = Some od ∧
        (is_in_cache a c).1 = Ok (bool_decide (tag_of c a ∈ od)).
Proof.
  intros (Hop & _ & _).
  destruct (home_set_lookup c (tag_of c a) Hop) as [od Hod].
  exists od. split; [done|].
  rewrite (is_in_cache_operational a c od) by done. by case_bool_decide.
Qed.

Lemma insert_ready a c :
  ready c →
  ∃ od c', cache c !! home_set c (tag_of c a) = Some od ∧
           add_to_cache a c = (Ok tt, c') ∧
           cache c' = <[home_set c (tag_of c a) :=
                          lru_insert (lines_per_set c) (tag_of c a) od]>
                        (cache c) ∧
           ready c' ∧ same_config c c'.
Proof.
  intros Hr. pose proof Hr as (Hop & Hwf & _).
  destruct (home_set_lookup c (tag_of c a) Hop) as [od Hod].
  destruct (add_to_cache_operational a c od) as (c' & Hadd & Hc'); try done.
  exists od, c'. split_and!; try done.
  - pose proof (exec_ready (Insert a) c Hr) as H. simpl in H.
    by rewrite Hadd in H.
  - pose proof (transition_same_config _ _ (exec_transition (Insert a) c)) as H.
    simpl in H. by rewrite Hadd in H.
Qed.

(** In a well-formed cache a tag is in [tag_set] exactly when it is in the
    set its index selects. *)
Lemma tag_set_home c t od :
  well_formed c → cache c !! home_set c t = Some od →
  t ∈ tag_set c ↔ t ∈ od.
Proof.
  intros Hwf Hod. rewrite (wf_tag_set _ Hwf). unfold resident_tags.
  rewrite elem_of_resident_of. split.
  - intros (s & od' & Hs & Ht).
    pose proof (wf_home _ Hwf _ _ _ Hs Ht) as <-. congruence.
  - intros Ht. by exists (home_set c t), od.
Qed.

End ready_caches.

(** ** Runs, and how recently a tag was used *)

Section recency.
Implicit Types (c : Cache) (od : list Z) (s t a : Z) (o : op).

Lemma run_app os1 os2 c :
  run (os1 ++ os2) c =
    ((run os1 c).1 ++ (run os2 (run os1 c).2).1, (run os2 (run os1 c).2).2).
Proof.
  revert c. induction os1 as [|o os1 IH]; intros c; simpl.
  - by destruct (run os2 c).
  - destruct (exec o c) as [r c1]. rewrite IH.
    by destruct (run os1 c1).
Qed.

Lemma run_cons o os c :
  run (o :: os) c =
    ((exec o c).1 :: (run os (exec o c).2).1, (run os (exec o c).2).2).
Proof.
  simpl. destruct (exec o c) as [r c1]. simpl. by destruct (run os c1).
Qed.

(** One probe or insert on a cache ready for use, as a list operation on
    the set of the address. *)
Lemma exec_access_ready o c od :
  ready c → is_access o = true →
  cache c !! home_set c (tag_of c (address_of o)) = Some od →
  cache (exec o c).2 =
    <[home_set c (tag_of c (address_of o)) :=
        set_after (lines_per_set c) o (tag_of c (address_of o)) od]> (cache c).
Proof.
  intros Hr Ho Hod. destruct o as [a|a|]; [| |done]; simpl in *.
  - destruct Hr as (Hop & _ & _).
    rewrite (is_in_cache_operational a c od) by done. unfold lru_probe.
    case_bool_decide; simpl; [done|]. by rewrite insert_id.
  - destruct (insert_ready a c Hr) as (od' & c' & Hod' & -> & Hc' & _).
    simpl. rewrite Hc'. congruence.
Qed.

Lemma recent_elem k t od : recent k t od → t ∈ od.
Proof. intros (pre & post & -> & _). apply elem_of_app. right. left. Qed.

Lemma recent_mono k k' t od : (k ≤ k')%nat → recent k t od → recent k' t od.
Proof. intros Hk (pre & post & -> & Hlen). exists pre, post. split; [done|lia]. Qed.

Lemma recent_last t pre : recent 0 t (pre ++ [t]).
Proof. exists pre, []. split; [done | simpl; lia]. Qed.

Lemma recent_touch k t t' od :
  recent k t od → recent (S k) t (touch t' od).
Proof.
  intros (pre & post & -> & Hlen). unfold touch.
  destruct (decide (t = t')) as [<-|Hne].
  { eapply recent_mono; [|apply recent_last]. lia. }
  rewrite filter_app, filter_cons_True by done. rewrite <- app_assoc. simpl.
  eexists _, _. split; [done|]. rewrite length_app. simpl.
  pose proof (length_filter (λ x, x ≠ t') post). lia.
Qed.

Lemma recent_set_after k N o t tb od :
  recent k t od → Z.of_nat k + 1 < N →
  recent (S k) t (set_after N o tb od).
Proof.
  intros Hrec Hk. destruct o as [b|b|]; simpl.
  - unfold lru_probe. case_bool_decide; simpl.
    + by apply recent_touch.
    + eapply recent_mono; [|done]. lia.
  - unfold lru_insert. case_bool_decide; [by apply recent_touch|].
    destruct Hrec as (pre & post & -> & Hlen).
    destruct (Z.leb_spec N (OrderedDict.len (pre ++ t :: post))) as [Hfull|_].
    + unfold OrderedDict.len in Hfull. rewrite length_app in Hfull.
      simpl in Hfull. destruct pre as [|x pre]; [simpl in Hfull; lia|].
      simpl. rewrite <- app_assoc. simpl. eexists _, _. split; [done|].
      rewrite length_app. simpl. lia.
    + rewrite <- app_assoc. simpl. eexists _, _. split; [done|].
      rewrite length_app. simpl. lia.
  - eapply recent_mono; [|done]. lia.
Qed.

(** The tag stays in its set through every probe or insert, of any
    address, as long as fewer than [lines_per_set] of them came after it. *)
Lemma recent_exec k t o c od :
  ready c → is_access o = true →
  cache c !! home_set c t = Some od →
  recent k t od → Z.of_nat k + 1 < lines_per_set c →
  ∃ od', cache (exec o c).2 !! home_set c t = Some od' ∧ recent (S k) t od'.
Proof.
  intros Hr Ho Hod Hrec Hk. pose proof Hr as (Hop & _ & _).
  destruct (home_set_lookup c (tag_of c (address_of o)) Hop) as [odb Hodb].
  rewrite (exec_access_ready o c odb) by done.
  destruct (decide (home_set c (tag_of c (address_of o)) = home_set c t))
    as [Heq|Hne].
  - rewrite Heq, lookup_insert_eq. eexists. split; [done|].
    rewrite Heq in Hodb. assert (odb = od) as -> by congruence.
    by apply recent_set_after.
  - rewrite lookup_insert_ne by done. exists od. split; [done|].
    eapply recent_mono; [|done]. lia.
Qed.

Lemma recent_run k t os c od :
  ready c → forallb is_access os = true →
  cache c !! home_set c t = Some od →
  recent k t od → Z.of_nat (k + length os) < lines_per_set c →
  ∃ od', cache (run os c).2 !! home_set c t = Some od' ∧
         recent (k + length os) t od' ∧
         ready (run os c).2 ∧ same_config c (run os c).2.
Proof.
  revert k c od. induction os as [|o os IH]; intros k c od Hr Hos Hod Hrec Hk.
  { exists od. simpl. rewrite Nat.add_0_r. by split_and!. }
  simpl in Hos. apply andb_true_iff in Hos as [Ho Hos].
  simpl length in *. rewrite run_cons. cbn [snd].
  destruct (recent_exec k t o c od) as (od1 & Hod1 & Hrec1); try done; [lia|].
  pose proof (exec_ready o c Hr) as Hr1.
  pose proof (transition_same_config _ _ (exec_transition o c))
    as (Hc1 & Hc2 & Hc3 & Hc4 & Hc5).
  assert (home_set (exec o c).2 t = home_set c t) as Hhome
    by (unfold home_set; by rewrite Hc3, Hc4).
  destruct (IH (S k) (exec o c).2 od1) as (od' & Hod' & Hrec' & Hr' & Hcfg);
    try done; [by rewrite Hhome | rewrite Hc5; lia |].
  rewrite Hhome in Hod'. exists od'.
  replace (k + S (length os))%nat with (S k + length os)%nat by lia.
  split_and!; try done.
  destruct Hcfg as (?&?&?&?&?). repeat split; congruence.
Qed.

End recency.

(** ** Counting resident tags *)

Section counting.
Implicit Types (c : Cache) (od : list Z) (X Y : gset Z).

Lemma size_union_le X Y : (size (X ∪ Y) ≤ size X + size Y)%nat.
Proof.
  rewrite size_union_alt.
  assert (Y ∖ X ⊆ Y) as Hsub by (intros x [? _]%elem_of_difference; done).
  pose proof (subseteq_size _ _ Hsub). lia.
Qed.

Lemma size_list_to_set_le od : (size (list_to_set od : gset Z) ≤ length od)%nat.
Proof.
  induction od as [|x od IH]; [rewrite list_to_set_nil, size_empty; done|].
  rewrite list_to_set_cons. simpl.
  pose proof (size_union_le {[x]} (list_to_set od)) as H.
  rewrite size_singleton in H. lia.
Qed.

Lemma size_union_list_le (N : nat) (l : list (list Z)) :
  Forall (λ od, (length od ≤ N)%nat) l →
  (size (⋃ (list_to_set <$> l) : gset Z) ≤ length l * N)%nat.
Proof.
  induction 1 as [|od l Hod _ IH];
    [rewrite fmap_nil, union_list_nil, size_empty; done|].
  rewrite fmap_cons, union_list_cons. simpl length.
  pose proof (size_union_le (list_to_set od) (⋃ (list_to_set <$> l))).
  pose proof (size_list_to_set_le od). lia.
Qed.

Lemma size_resident_of (N : nat) (m : gmap Z (list Z)) :
  (∀ s od, m !! s = Some od → (length od ≤ N)%nat) →
  (size (resident_of m) ≤ size m * N)%nat.
Proof.
  intros Hlen. unfold resident_of.
  rewrite <- (length_map_to_list m), <- (length_fmap snd (map_to_list m)).
  apply size_union_list_le, Forall_forall. intros od Hod.
  apply list_elem_of_fmap in Hod as ([s od'] & -> & Hin).
  apply elem_of_map_to_list in Hin. by eapply Hlen.
Qed.

Lemma operational_size c :
  operational c → size (cache c) = Z.to_nat (num_sets c).
Proof.
  intros Hop. rewrite <- (size_dom (D:=gset Z)).
  replace (dom (cache c)) with (list_to_set (seqZ 0 (num_sets c)) : gset Z).
  { rewrite size_list_to_set by apply NoDup_seqZ. apply length_seqZ. }
  apply set_eq. intros s.
  rewrite elem_of_list_to_set, elem_of_seqZ, elem_of_dom, (op_keys _ Hop). lia.
Qed.

Lemma ready_size_tag_set c :
  ready c → Z.of_nat (size (tag_set c)) ≤ num_lines c.
Proof.
  intros (Hop & Hwf & Hcap).
  rewrite (wf_tag_set _ Hwf). unfold resident_tags.
  pose proof (size_resident_of (Z.to_nat (lines_per_set c)) (cache c)) as Hsize.
  rewrite operational_size in Hsize by done.
  pose proof (op_num_sets _ Hop). pose proof (op_lines_per_set _ Hop).
  rewrite <- (op_product _ Hop).
  etrans; [apply inj_le, Hsize|].
  - intros s od Hs. specialize (Hcap s od Hs). unfold OrderedDict.len in Hcap.
    lia.
  - rewrite Nat2Z.inj_mul, !Z2Nat.id by lia. done.
Qed.

End counting.

(** ** Random parameters *)

Section random_parameters.
Implicit Types (g : RandomState) (M L : Z).

Lemma LoopPattern_generate_random_params_eq M L g :
  LoopPattern.generate_random_params M L g =
    if M <? 10 then ([], Raise ValueError, g)
    else ([], Ok (M, L, 10 + raw g (pos g) mod (Z.min 1000 M - 10 + 1)),
          advance g).
Proof.
  unfold LoopPattern.generate_random_params, mbind, Gen_bind, randint,
    LoopPattern._DEFAULT_LOOP_SIZE_MIN, LoopPattern._DEFAULT_LOOP_SIZE_MAX.
  destruct (Z.ltb_spec M 10), (Z.ltb_spec (Z.min 1000 M) 10); try lia; done.
Qed.

Lemma float_le_trans a b c :
  float_le (Finite a) (Finite b) = true →
  float_le (Finite b) (Finite c) = true →
  float_le (Finite a) (Finite c) = true.
Proof.
  simpl. rewrite !Qle_bool_iff. apply Qle_trans.
Qed.

Lemma sample_uniform_contract : uniform_contract sample_uniform.
Proof.
  intros a b g Hab. exists a, (advance g). split; [done|]. split; [|done].
  simpl. apply Qle_bool_iff, Qle_refl.
Qed.

(** Whatever the draws, the parameters a pattern samples for itself are
    ones its generator accepts; only the loop pattern can fail to sample,
    for want of room for a loop of 10 addresses. *)
Lemma generate_random_params_valid uniform k M L g :
  uniform_contract uniform → 0 < M → 0 < L → (k = LoopClass → 10 ≤ M) →
  ∃ p g', generate_random_params uniform k M L g = ([], Ok (p, M, L), g') ∧
          class_of p = k ∧ valid_params p M L.
Proof.
  intros Hu HM HL Hloop. unfold valid_params.
  destruct k; simpl.
  - unfold SequentialWithJumpsPattern.generate_random_params,
      SequentialWithJumpsPattern._DEFAULT_EPSILON_MIN,
      SequentialWithJumpsPattern._DEFAULT_EPSILON_MAX.
    edestruct Hu as (u & g' & Hcall & Hlo & Hhi); [|
      exists (Sequential (Finite u)), g'; split;
        [unfold mbind, Gen_bind; rewrite Hcall; reflexivity|]].
    { reflexivity. }
    split; [done|]. split; [done|]. split; [done|]. simpl within_bound. split.
    + eapply float_le_trans; [|exact Hlo]. reflexivity.
    + eapply float_le_trans; [exact Hhi|]. reflexivity.
  - specialize (Hloop eq_refl).
    unfold mbind at 1, Gen_bind. rewrite LoopPattern_generate_random_params_eq.
    destruct (Z.ltb_spec M 10); [lia|]. eexists _, _. split; [reflexivity|].
    split; [done|]. split; [done|]. split; [done|]. simpl.
    pose proof (Z.mod_pos_bound (raw g (pos g)) (Z.min 1000 M - 10 + 1)). lia.
  - eexists _, _. by repeat split.
  - eexists _, _. split; [reflexivity|]. split; [done|]. split; [done|].
    split; [done|]. simpl.
    unfold StridePattern._DEFAULT_STRIDE_MIN, StridePattern._DEFAULT_STRIDE_MAX.
    pose proof (Z.mod_pos_bound (raw g (pos g)) (16 - 1 + 1)). lia.
  - eexists _, _. split; [reflexivity|]. split; [done|]. split; [done|].
    split; [done|]. simpl.
    unfold StackPattern._DEFAULT_STACK_SIZE_MIN,
      StackPattern._DEFAULT_STACK_SIZE_MAX.
    pose proof (Z.mod_pos_bound (raw g (pos g)) (100 - 10 + 1)). lia.
  - eexists _, _. by repeat split.
Qed.

End random_parameters.

(** ** Successive addresses *)

Section successive.
Context {S : Type}.
Implicit Types (g : RandomState) (ys : list Z).

(** A loop whose body yields the next address from the last one, kept in
    the local variables, yields a chain. *)
Lemma for_each_chain (key : S → Z) (R : Z → Z → Prop) xs
    (body : Z → S → Gen S) s g :
  (∀ i s g, ∃ a s' g',
     body i s g = ([a], Ok s', g') ∧ key s' = a ∧ R (key s) a) →
  chain R (key s) (yielded (for_each xs body s g)).
Proof.
  intros Hbody. revert s g. induction xs as [|i xs IH]; intros s g; [done|].
  destruct (Hbody i s g) as (a & s1 & g1 & Hstep & Hkey & HR).
  simpl. rewrite (bind_ok _ _ _ _ _ _ Hstep). unfold yielded at 1. simpl.
  split; [done|]. rewrite <- Hkey. apply IH.
Qed.

Lemma chain_lookup (R : Z → Z → Prop) x ys i a b :
  chain R x ys → ys !! i = Some a → ys !! Datatypes.S i = Some b → R a b.
Proof.
  revert x i. induction ys as [|y ys IH]; intros x i Hch Ha Hb; [done|].
  destruct Hch as [_ Hch]. destruct i as [|i]; simpl in *.
  - injection Ha as ->. destruct ys; simplify_eq/=. tauto.
  - by eapply IH.
Qed.

Lemma chain_impl (R R' : Z → Z → Prop) x ys :
  (∀ a b, R a b → R' a b) → chain R x ys → chain R' x ys.
Proof.
  intros HR. revert x. induction ys as [|y ys IH]; intros x; [done|].
  simpl. intros [? ?]. split; auto.
Qed.

End successive.

(** ** The stack and the sequential generator, step by step *)

Section stepwise.
Implicit Types (g : RandomState) (M L : Z).

Lemma yielded_then_return {A} (m : Gen A) g :
  yielded ((m;; mret tt) g) = yielded (m g).
Proof.
  unfold mbind, Gen_bind, yielded. destruct (m g) as [[ys [a|e]] g']; simpl;
    [apply app_nil_r | done].
Qed.

Lemma lookup_emitted M L x (i : nat) :
  emits M L x → 0 < L → Z.of_nat i < L →
  ∃ a, yielded x !! i = Some a ∧ 0 ≤ a ≤ M.
Proof.
  intros (_ & Hlen & Hall) HL Hi.
  destruct (lookup_lt_is_Some_2 (yielded x) i) as [a Ha]; [lia|].
  exists a. split; [done|].
  by apply (Forall_lookup_1 _ _ _ _ Hall Ha).
Qed.

(** Each stack address is the previous pointer moved by at most 10, then
    clamped. *)
Lemma StackPattern_chain M L stack_size g :
  0 < M → 0 < L → 0 ≤ stack_size →
  ∃ sp0, chain (λ x y, ∃ m, -10 ≤ m ≤ 10 ∧ y = Z.max 0 (Z.min (x + m) M)) sp0
           (yielded (StackPattern.generate_sequence M L stack_size g)).
Proof.
  intros HM HL Hs. unfold StackPattern.generate_sequence.
  rewrite (bind_ok _ _ _ _ _ _ (validate_common_params_ok M L g HM HL)).
  destruct (Z.ltb_spec stack_size 0); [lia|].
  rewrite (bind_ok _ _ g [] tt g) by done.
  destruct (randint_ok StackPattern._STACK_HEADROOM
              (Z.max StackPattern._STACK_HEADROOM
                 (M - StackPattern._STACK_HEADROOM)) g)
    as (sp0 & Hsp0 & _); [lia|].
  rewrite (bind_ok _ _ _ _ _ _ Hsp0). exists sp0.
  unfold yielded at 1 2 3. simpl app. rewrite yielded_then_return.
  unfold for_range.
  apply (for_each_chain (λ s : Z * Z, s.1) _ _ _ (sp0, stack_size)).
  intros _ [sp depth] g1. destruct (random_ok g1) as (u & Hu).
  rewrite (bind_ok _ _ _ _ _ _ Hu). unfold yielded, ending.
  destruct (randint_ok StackPattern._STACK_MOVE_MIN
              StackPattern._STACK_MOVE_MAX (advance g1))
    as (move & Hmove & Hrange); [done|].
  unfold StackPattern._STACK_MOVE_MIN, StackPattern._STACK_MOVE_MAX in Hrange.
  destruct (float_lt u StackPattern._PUSH_PROBABILITY
            && (depth <? StackPattern._MAX_STACK_DEPTH)).
  - rewrite (bind_ok _ _ (advance g1) [] (sp - move, depth + 1)
               (advance (advance g1)))
      by (by rewrite (bind_ok _ _ _ _ _ _ Hmove)).
    eexists _, _, _. split; [reflexivity|]. split; [done|].
    exists (- move). simpl. split; lia.
  - destruct (0 <? depth).
    + rewrite (bind_ok _ _ (advance g1) [] (sp + move, depth - 1)
                 (advance (advance g1)))
        by (by rewrite (bind_ok _ _ _ _ _ _ Hmove)).
      eexists _, _, _. split; [reflexivity|]. split; [done|].
      exists move. simpl. split; lia.
    + eexists _, _, _. split; [reflexivity|]. split; [done|].
      exists 0. simpl. split; lia.
Qed.

Lemma random_nonnegative g :
  ∃ k d, random g = ([], Ok (Finite (k # d)), advance g) ∧ 0 ≤ k.
Proof.
  eexists _, _. split; [reflexivity|].
  apply Z.mod_pos_bound. lia.
Qed.

Lemma float_lt_zero_false k d epsilon :
  0 ≤ k → float_le epsilon (float_of_Z 0) = true →
  float_lt (Finite (k # d)) epsilon = false.
Proof.
  intros Hk. destruct epsilon as [q| | |]; simpl; try done.
  rewrite Qle_bool_iff. intros Hq. apply negb_false_iff, Qle_bool_iff.
  eapply Qle_trans; [exact Hq|]. unfold Qle. simpl. lia.
Qed.

(** With a jump probability of zero the sequential generator only steps. *)
Lemma SequentialWithJumpsPattern_chain_zero M L epsilon g :
  0 < M → 0 < L →
  float_le (float_of_Z 0) epsilon = true →
  float_le epsilon (float_of_Z 0) = true →
  ∃ start, chain (λ x y, y = (x + 1) mod (M + 1)) start
             (yielded (SequentialWithJumpsPattern.generate_sequence
                         M L epsilon g)).
Proof.
  intros HM HL H0 Hzero. unfold SequentialWithJumpsPattern.generate_sequence.
  rewrite (bind_ok _ _ _ _ _ _ (validate_common_params_ok M L g HM HL)).
  assert (float_le epsilon (float_of_Z 1) = true) as H1.
  { destruct epsilon as [q| | |]; try done.
    eapply float_le_trans; [exact Hzero | reflexivity]. }
  rewrite H0, H1. simpl andb. cbv iota.
  rewrite (bind_ok _ _ g [] tt g) by done.
  destruct (randint_ok 0 M g) as (start & Hstart & _); [lia|].
  rewrite (bind_ok _ _ _ _ _ _ Hstart). exists start.
  unfold yielded at 1 2 3. simpl app. rewrite yielded_then_return.
  unfold for_range. apply (for_each_chain (λ s : Z, s) _ _ _ start).
  intros _ cur g1. destruct (random_nonnegative g1) as (k & d & Hu & Hk).
  rewrite (bind_ok _ _ _ _ _ _ Hu). unfold yielded, ending.
  rewrite (float_lt_zero_false k d epsilon Hk Hzero).
  unfold py_mod. destruct (Z.eqb_spec (M + 1) 0); [lia|].
  eexists _, _, _. split; [reflexivity|]. done.
Qed.

End stepwise.

(** ** Replaying a sequence through a cache *)

Section replaying.
Implicit Types (c : Cache) (od : list Z) (s t a : Z) (ys : list Z).

(** One round of the loop on a cache ready for use. *)
Lemma replay_step_ready a c :
  ready c →
  ∃ c1 c2,
    is_in_cache a c = (Ok (bool_decide (tag_of c a ∈ tag_set c)), c1) ∧
    add_to_cache a c1 = (Ok tt, c2) ∧
    ready c2 ∧ same_config c c2 ∧
    tag_of c a ∈ tag_set c2 ∧
    (∀ x, x ∈ tag_set c2 → x = tag_of c a ∨ x ∈ tag_set c).
Proof.
  intros Hr.
  pose proof (exec_ready (Probe a) c Hr) as Hr1.
  pose proof (transition_same_config _ _ (exec_transition (Probe a) c)) as Hcfg1.
  destruct (probe_ready a c Hr) as (od & Hod & Hprobe).
  assert (tag_set (is_in_cache a c).2 = tag_set c) as Hts1.
  { rewrite is_in_cache_eq. destruct (get_set_index a c).1 as [s|e]; [|done].
    unfold probe_outcome. destruct (cache c !! s) as [ods|]; [|done].
    by destruct (bool_decide (a / line_size c ∈ ods)). }
  simpl in Hr1, Hcfg1.
  destruct (is_in_cache a c) as [r c1] eqn:Hcall. simpl in *.
  destruct Hcfg1 as (Hls1 & Hnl1 & Has1 & Hns1 & Hlp1).
  destruct (insert_ready a c1 Hr1) as (od1 & c2 & Hod1 & Hadd & Hc2 & Hr2 & Hcfg2).
  destruct Hcfg2 as (Hls2 & Hnl2 & Has2 & Hns2 & Hlp2).
  assert (tag_of c1 a = tag_of c a) as Ht1 by (unfold tag_of; by rewrite Hls1).
  assert (∀ t, home_set c1 t = home_set c t) as Hh1
    by (intros t; unfold home_set; by rewrite Has1, Hns1).
  assert (∀ t, home_set c2 t = home_set c t) as Hh2
    by (intros t; unfold home_set; by rewrite Has2, Hns2, Has1, Hns1).
  rewrite Ht1, Hh1 in Hod1, Hc2.
  assert (r = Ok (bool_decide (tag_of c a ∈ tag_set c))) as ->.
  { rewrite Hprobe. f_equal. apply bool_decide_ext. symmetry.
    apply tag_set_home; [apply Hr | done]. }
  assert (same_config c c2) as Hcfg by (repeat split; congruence).
  assert (tag_of c a ∈ tag_set c2) as Hin.
  { destruct Hr2 as (_ & Hwf2 & _).
    apply (tag_set_home c2 (tag_of c a)
             (lru_insert (lines_per_set c1) (tag_of c a) od1)); [done| |].
    - by rewrite Hh2, Hc2, lookup_insert_eq.
    - apply lru_insert_elem. }
  assert (∀ x, x ∈ tag_set c2 → x = tag_of c a ∨ x ∈ tag_set c) as Hsub.
  { intros x Hx. pose proof Hr2 as (Hop2 & Hwf2 & _).
    destruct (home_set_lookup c2 x Hop2) as [odx Hodx].
    apply (tag_set_home c2 x odx Hwf2 Hodx) in Hx.
    rewrite Hh2, Hc2 in Hodx. rewrite <- Hts1.
    destruct Hr1 as (_ & Hwf1 & _).
    destruct (decide (home_set c (tag_of c a) = home_set c x)) as [Heq|Hne].
    - rewrite Heq, lookup_insert_eq in Hodx. injection Hodx as <-.
      apply elem_of_lru_insert in Hx as [->|Hx]; [by left|]. right.
      apply (tag_set_home c1 x od1 Hwf1); [|done]. by rewrite Hh1, <- Heq.
    - rewrite lookup_insert_ne in Hodx by done. right.
      apply (tag_set_home c1 x odx Hwf1); [|done]. by rewrite Hh1. }
  by exists c1, c2.
Qed.

Lemma replay_cons a ys c c1 c2 hit :
  is_in_cache a c = (Ok hit, c1) → add_to_cache a c1 = (Ok tt, c2) →
  CacheDataset.replay (a :: ys) c =
    (match (CacheDataset.replay ys c2).1 with
     | Ok (addresses, labels) =>
         Ok (a :: addresses, (if hit then 1 else 0) :: labels)
     | Raise e => Raise e
     end, (CacheDataset.replay ys c2).2).
Proof.
  intros Hprobe Hadd. simpl. unfold mbind, M_bind. rewrite Hprobe, Hadd.
  by destruct (CacheDataset.replay ys c2) as [[[addresses labels]|e] c3].
Qed.

(** In a cache ready for use the loop never raises; it returns the
    addresses as they came and one label per address. *)
Lemma replay_ready ys c :
  ready c →
  ∃ labels, (CacheDataset.replay ys c).1 = Ok (ys, labels) ∧
            length labels = length ys ∧
            Forall (λ l, l = 0 ∨ l = 1) labels.
Proof.
  revert c. induction ys as [|a ys IH]; intros c Hr.
  { exists []. by repeat split. }
  destruct (replay_step_ready a c Hr) as (c1 & c2 & Hp & Ha & Hr2 & _).
  destruct (IH c2 Hr2) as (labels & Hrep & Hlen & Hall).
  rewrite (replay_cons _ _ _ _ _ _ Hp Ha), Hrep. simpl.
  eexists. split; [done|]. split; [simpl; by f_equal|].
  constructor; [case_bool_decide; auto | done].
Qed.

Lemma replay_head a ys c labels :
  ready c → (CacheDataset.replay (a :: ys) c).1 = Ok (a :: ys, labels) →
  labels !! 0%nat = Some (if bool_decide (tag_of c a ∈ tag_set c) then 1 else 0).
Proof.
  intros Hr. destruct (replay_step_ready a c Hr) as (c1 & c2 & Hp & Ha & _).
  rewrite (replay_cons _ _ _ _ _ _ Hp Ha). simpl.
  destruct (CacheDataset.replay ys c2).1 as [[addresses ls]|e]; [|done].
  by intros [= _ <-].
Qed.

(** A label 1 needs the line to be resident at the start or accessed
    earlier in the sequence. *)
Lemma replay_hit_seen ys c labels i :
  ready c → (CacheDataset.replay ys c).1 = Ok (ys, labels) →
  labels !! i = Some 1 →
  ∃ a, ys !! i = Some a ∧
       (tag_of c a ∈ tag_set c ∨
        ∃ j a', (j < i)%nat ∧ ys !! j = Some a' ∧ tag_of c a' = tag_of c a).
Proof.
  revert c labels i. induction ys as [|a ys IH]; intros c labels i Hr Hrep Hl.
  { simpl in Hrep. injection Hrep as <-. done. }
  destruct (replay_step_ready a c Hr)
    as (c1 & c2 & Hp & Ha & Hr2 & Hcfg & Hin & Hsub).
  rewrite (replay_cons _ _ _ _ _ _ Hp Ha) in Hrep. simpl in Hrep.
  destruct (CacheDataset.replay ys c2).1 as [[addresses ls]|e] eqn:Hrest;
    [|done].
  injection Hrep as -> <-.
  destruct i as [|i]; simpl in Hl.
  - exists a. split; [done|]. left. by case_bool_decide.
  - destruct (IH c2 ls i Hr2 Hrest Hl) as (b & Hb & Hcase).
    assert (∀ x, tag_of c2 x = tag_of c x) as Htag
      by (intros x; unfold tag_of; by destruct Hcfg as (-> & _)).
    rewrite !Htag in Hcase. exists b. split; [done|].
    destruct Hcase as [Hres|(j & a' & Hj & Ha' & Heq)].
    + destruct (Hsub _ Hres) as [Heq|Hold]; [|by left].
      right. exists 0%nat, a. split; [lia|]. by split.
    + right. exists (S j), a'. rewrite Htag in Heq. split; [lia|]. by split.
Qed.

(** An address right after one of the same line is a hit. *)
Lemma replay_repeat_hits ys c labels i a b :
  ready c → (CacheDataset.replay ys c).1 = Ok (ys, labels) →
  ys !! i = Some a → ys !! S i = Some b → tag_of c a = tag_of c b →
  labels !! S i = Some 1.
Proof.
  revert c labels i. induction ys as [|y ys IH]; intros c labels i Hr Hrep Hi Hsi Hab;
    [done|].
  destruct (replay_step_ready y c Hr)
    as (c1 & c2 & Hp & Ha & Hr2 & Hcfg & Hin & Hsub).
  rewrite (replay_cons _ _ _ _ _ _ Hp Ha) in Hrep. simpl in Hrep.
  destruct (CacheDataset.replay ys c2).1 as [[addresses ls]|e] eqn:Hrest;
    [|done].
  injection Hrep as -> <-.
  assert (∀ x, tag_of c2 x = tag_of c x) as Htag
    by (intros x; unfold tag_of; by destruct Hcfg as (-> & _)).
  simpl in Hsi. destruct i as [|i]; simpl in Hi |- *.
  - injection Hi as ->. destruct ys as [|b' ys]; [done|]. simpl in Hsi.
    injection Hsi as ->.
    rewrite (replay_head b ys c2 ls Hr2 Hrest).
    by rewrite Htag, <- Hab, bool_decide_eq_true_2.
  - eapply (IH c2 ls i); try done. by rewrite !Htag.
Qed.

End replaying.

(** ** Replaying without evictions *)

Section no_evictions.
Implicit Types (c : Cache) (od : list Z) (s t a : Z) (ys : list Z).

Lemma is_in_cache_tag_set a c : tag_set (is_in_cache a c).2 = tag_set c.
Proof.
  rewrite is_in_cache_eq. destruct (get_set_index a c).1 as [s|e]; [|done].
  unfold probe_outcome. destruct (cache c !! s) as [ods|]; [|done].
  by destruct (bool_decide (a / line_size c ∈ ods)).
Qed.

(** In fully associative mode the one set is the whole content. *)
Lemma fully_associative_content c od :
  ready c → associativity c = 0 → cache c !! 0 = Some od →
  tag_set c = list_to_set od ∧ NoDup od ∧ lines_per_set c = num_lines c.
Proof.
  intros (Hop & Hwf & _) Hassoc Hod. split_and!.
  - apply set_eq. intros x. rewrite elem_of_list_to_set.
    apply tag_set_home; [done|]. unfold home_set. by rewrite Hassoc.
  - by apply (wf_nodup _ Hwf 0).
  - pose proof (op_product _ Hop) as Hprod.
    rewrite (op_single _ Hop Hassoc) in Hprod. lia.
Qed.

Lemma step_no_eviction a c c1 c2 hit :
  ready c → associativity c = 0 →
  is_in_cache a c = (Ok hit, c1) → add_to_cache a c1 = (Ok tt, c2) →
  tag_of c a ∈ tag_set c ∨ Z.of_nat (size (tag_set c)) < num_lines c →
  tag_set c2 = {[tag_of c a]} ∪ tag_set c.
Proof.
  intros Hr Hassoc Hp Ha Hroom.
  pose proof (exec_ready (Probe a) c Hr) as Hr1.
  pose proof (transition_same_config _ _ (exec_transition (Probe a) c)) as Hcfg1.
  pose proof (is_in_cache_tag_set a c) as Hts1.
  simpl in Hr1, Hcfg1. rewrite Hp in Hr1, Hcfg1, Hts1. simpl in *.
  destruct Hcfg1 as (Hls1 & Hnl1 & Has1 & Hns1 & Hlp1).
  destruct (insert_ready a c1 Hr1) as (od1 & c2' & Hod1 & Hadd & Hc2 & Hr2 & Hcfg2).
  rewrite Ha in Hadd. injection Hadd as <-.
  destruct Hcfg2 as (Hls2 & Hnl2 & Has2 & Hns2 & Hlp2).
  assert (tag_of c1 a = tag_of c a) as Ht1 by (unfold tag_of; by rewrite Hls1).
  assert (∀ t, home_set c1 t = 0) as Hh1
    by (intros t; unfold home_set; by rewrite Has1, Hassoc).
  rewrite Ht1, Hh1 in Hod1, Hc2.
  destruct (fully_associative_content c1 od1 Hr1) as (Hc1 & Hnd1 & Hl1);
    [congruence | done |].
  destruct (fully_associative_content c2
              (lru_insert (lines_per_set c1) (tag_of c a) od1) Hr2)
    as (-> & _ & _); [congruence | by rewrite Hc2, lookup_insert_eq |].
  rewrite <- Hts1, Hc1 in Hroom |- *.
  apply set_eq. intros x.
  rewrite elem_of_union, elem_of_singleton, !elem_of_list_to_set.
  unfold lru_insert. case_bool_decide as Hin.
  { rewrite elem_of_touch. split; [tauto|]. intros [->|?]; tauto. }
  destruct Hroom as [Hres|Hsize]; [by apply elem_of_list_to_set in Hres|].
  rewrite size_list_to_set in Hsize by done.
  destruct (Z.leb_spec (lines_per_set c1) (OrderedDict.len od1)) as [Hfull|_].
  { unfold OrderedDict.len in Hfull. lia. }
  rewrite elem_of_app, list_elem_of_singleton. tauto.
Qed.

Lemma seen_labels_ext seen seen' tags :
  (∀ x, x ∈ seen ↔ x ∈ seen') → seen_labels seen tags = seen_labels seen' tags.
Proof.
  revert seen seen'. induction tags as [|t tags IH]; intros seen seen' H; [done|].
  simpl. f_equal.
  - by rewrite (bool_decide_ext _ _ (H t)).
  - apply IH. intros x. rewrite !elem_of_cons, H. done.
Qed.

Lemma replay_seen_labels ys c seen :
  ready c → associativity c = 0 →
  (∀ x, x ∈ tag_set c ↔ x ∈ seen) →
  Z.of_nat (size (list_to_set (seen ++ tags_of (line_size c) ys) : gset Z))
    ≤ num_lines c →
  (CacheDataset.replay ys c).1 =
    Ok (ys, seen_labels seen (tags_of (line_size c) ys)).
Proof.
  revert c seen. induction ys as [|a ys IH]; intros c seen Hr Hassoc Hseen Hfit;
    [done|].
  destruct (replay_step_ready a c Hr)
    as (c1 & c2 & Hp & Ha & Hr2 & Hcfg & _ & _).
  assert (tag_set c2 = {[tag_of c a]} ∪ tag_set c) as Hts2.
  { eapply step_no_eviction; try done.
    destruct (decide (tag_of c a ∈ tag_set c)) as [|Hnew]; [by left|]. right.
    eapply Z.lt_le_trans; [|exact Hfit].
    assert (({[tag_of c a]} ∪ tag_set c : gset Z) ⊆
            list_to_set (seen ++ tags_of (line_size c) (a :: ys))) as Hsub.
    { intros x. rewrite elem_of_union, elem_of_singleton, elem_of_list_to_set,
        elem_of_app, Hseen. simpl. rewrite elem_of_cons. unfold tag_of. tauto. }
    apply subseteq_size in Hsub.
    rewrite size_union, size_singleton in Hsub
      by (intros x ->%elem_of_singleton; done).
    lia. }
  destruct Hcfg as (Hls2 & Hnl2 & Has2 & _).
  rewrite (replay_cons _ _ _ _ _ _ Hp Ha).
  rewrite (IH c2 (tag_of c a :: seen)); try done; try congruence.
  - simpl. rewrite Hls2. unfold tag_of.
    by rewrite (bool_decide_ext _ _ (Hseen (a / line_size c))).
  - intros x. rewrite Hts2, elem_of_union, elem_of_singleton, elem_of_cons,
      Hseen. done.
  - rewrite Hls2, Hnl2. etrans; [|exact Hfit]. apply inj_le, subseteq_size.
    intros x. rewrite !elem_of_list_to_set, !elem_of_app. simpl.
    rewrite !elem_of_cons. unfold tag_of. tauto.
Qed.

End no_evictions.

(** ** The driver *)

Section driver.
Implicit Types (g : RandomState) (d : CacheDataset.t).











End driver.

(** ** The diagnostic dump *)

(** The loop of the dump over indices that are all keys of the dictionary:
    it never raises, leaves the cache alone, appends lines that all start
    with the letter S, and appends none exactly when every visited set is
    empty. *)
Lemma str_lines_eq idxs : ∀ r c,
  (∀ i, i ∈ idxs → is_Some (cache c !! i)) →
  ∃ lines, str_lines idxs r c = (Ok (r ++ lines), c) ∧
    Forall (λ l, ∃ rest, l = "S" +:+ rest) lines ∧
    (lines = [] ↔ ∀ i, i ∈ idxs → cache c !! i = Some []).
Proof.
  induction idxs as [|i idxs IH]; intros r c Hkeys.
  - exists []. rewrite app_nil_r. split_and!; [done|constructor|].
    split; [|done]. intros _ i Hi. by apply elem_of_nil in Hi.
  - destruct (Hkeys i) as [od Hod]; [left|].
    assert (Hrest : ∀ j, j ∈ idxs → is_Some (cache c !! j))
      by (intros j Hj; apply Hkeys; by right).
    cbn [str_lines]. unfold mbind at 1, M_bind, cache_getitem at 1.
    rewrite Hod. case_bool_decide as Hempty.
    + destruct (IH r c Hrest) as (lines & Heq & Hs & Hiff).
      exists lines. split_and!; [done..|]. rewrite Hiff. split.
      * intros H j [->|Hj]%elem_of_cons; [by subst od | by apply H].
      * intros H j Hj. apply H. by right.
    + unfold mbind at 1, M_bind, cache_getitem at 1. rewrite Hod.
      destruct (IH (r ++ ["Set " +:+ pretty i +:+ ": " +:+ repr_list od]) c Hrest)
        as (lines & Heq & Hs & _).
      eexists (_ :: lines). rewrite Heq, <- app_assoc. split_and!; [done| |].
      * constructor; [|done]. simpl. by eexists.
      * split; [done|]. intros H. destruct Hempty.
        specialize (H i (list_elem_of_here _ _)). congruence.
Qed.

(** Joined lines that all start with the letter S never read as the
    message for an empty cache. *)
Lemma concat_lines_not_empty_message l lines :
  Forall (λ l, ∃ rest, l = "S" +:+ rest) (l :: lines) →
  String.concat newline (l :: lines) ≠ "Cache is empty".
Proof.
  intros [[rest ->] _]%Forall_cons. simpl. by destruct lines.
Qed.

(** The dump of a cache whose dictionary has the keys [0 .. num_sets − 1]. *)
Lemma str_ready c :
  ready c →
  ∃ s, __str__ c = (Ok s, c) ∧ (s = "Cache is empty" ↔ tag_set c = ∅).
Proof.
  intros (Hop & Hwf & _). unfold __str__, mbind, M_bind, self, mret, M_ret.
  destruct (str_lines_eq (seqZ 0 (num_sets c)) [] c) as (lines & -> & Hs & Hiff).
  { intros i Hi%elem_of_seqZ. apply (op_keys _ Hop). lia. }
  eexists. split; [done|]. rewrite (wf_tag_set _ Hwf). unfold resident_tags.
  simpl. destruct lines as [|l lines].
  - split; [intros _|done]. apply set_eq. intros t. split; [|set_solver].
    intros (s & od & Hod & Ht)%elem_of_resident_of.
    rewrite (proj1 Hiff eq_refl s) in Hod.
    + injection Hod as <-. by apply elem_of_nil in Ht.
    + apply elem_of_seqZ. pose proof (proj1 (op_keys _ Hop s) (mk_is_Some _ _ Hod)). lia.
  - split; [by intros ?%concat_lines_not_empty_message|].
    intros Hres. exfalso.
    assert (Hall : ∀ i, i ∈ seqZ 0 (num_sets c) → cache c !! i = Some []).
    { intros i Hi%elem_of_seqZ.
      destruct (proj2 (op_keys _ Hop i)) as [od Hod]; [lia|].
      destruct od as [|t od]; [done|].
      assert (t ∈ resident_of (cache c)) as Ht
        by (apply elem_of_resident_of; exists i, (t :: od); split; [done|left]).
      rewrite Hres in Ht. by apply elem_of_empty in Ht. }
    by apply Hiff in Hall.
Qed.

(** ** The heap generator, step by step *)

Section heap_steps.
Context {S : Type}.
Implicit Types (g : RandomState) (ys : list Z).

(** As [for_each_chain], for a body that needs an invariant of the local
    variables. *)
Lemma for_each_chain_invariant (I : S → Prop) (key : S → Z)
    (R : Z → Z → Prop) xs (body : Z → S → Gen S) s g :
  I s →
  (∀ i s g, I s → ∃ a s' g',
     body i s g = ([a], Ok s', g') ∧ key s' = a ∧ R (key s) a ∧ I s') →
  chain R (key s) (yielded (for_each xs body s g)).
Proof.
  intros Hs Hbody. revert s g Hs.
  induction xs as [|i xs IH]; intros s g Hs; [done|].
  destruct (Hbody i s g Hs) as (a & s1 & g1 & Hstep & Hkey & HR & Hs1).
  simpl. rewrite (bind_ok _ _ _ _ _ _ Hstep). unfold yielded at 1. simpl.
  split; [done|]. rewrite <- Hkey. by apply IH.
Qed.

Lemma chain_Forall (R : Z → Z → Prop) (P : Z → Prop) x ys :
  (∀ a b, R a b → P b) → chain R x ys → Forall P ys.
Proof.
  intros HR. revert x. induction ys as [|y ys IH]; intros x; [constructor|].
  simpl. intros [? ?]. constructor; eauto.
Qed.

End heap_steps.

Lemma yielded_bind_ok {A B} (m : Gen A) (f : A → Gen B) g ys a g' :
  m g = (ys, Ok a, g') → yielded ((m ≫= f) g) = ys ++ yielded (f a g').
Proof. intros Hm. by rewrite (bind_ok _ _ _ _ _ _ Hm). Qed.

(** Each heap address is the base plus an offset that grows by at most 100
    a step and never gets negative, clamped to [max_address]. *)
Lemma HeapPattern_chain M L g :
  0 < M → 0 < L →
  ∃ base,
    0 ≤ base ≤ Z.max 0 (M - Z.min HeapPattern._DEFAULT_MAX_HEAP_SIZE (M / 2)) ∧
    chain (λ x y, base ≤ y ∧ y ≤ x + 100) base
      (yielded (HeapPattern.generate_sequence M L g)).
Proof.
  intros HM HL. unfold HeapPattern.generate_sequence.
  rewrite (yielded_bind_ok _ _ _ _ _ _
             (validate_common_params_ok M L g HM HL)).
  rewrite (yielded_bind_ok _ _ g [] (M / 2) g) by done.
  assert (0 ≤ M / 2 ≤ M) as Hhalf.
  { split; [apply Z.div_pos; lia | apply Z.div_le_upper_bound; lia]. }
  destruct (randint_ok 0
              (Z.max 0 (M - Z.min HeapPattern._DEFAULT_MAX_HEAP_SIZE (M / 2))) g)
    as (base & Hbase & Hrange); [lia|].
  rewrite (yielded_bind_ok _ _ _ _ _ _ Hbase). exists base. split; [done|].
  simpl app. rewrite yielded_then_return.
  unfold for_range.
  assert (Z.min (base + 0) M = base) as Hkey
    by (unfold HeapPattern._DEFAULT_MAX_HEAP_SIZE in Hrange; lia).
  match goal with
  | |- chain ?R _ (yielded (for_each ?xs ?body ?s ?g')) =>
      pose proof (for_each_chain_invariant (λ offset, 0 ≤ offset)
                    (λ offset, Z.min (base + offset) M) R xs body s g')
        as Hchain
  end.
  cbv beta in Hchain. rewrite Hkey in Hchain. apply Hchain; [done|].
  intros _ offset g1 Hoff. destruct (random_ok g1) as (u & Hu).
  rewrite (bind_ok _ _ _ _ _ _ Hu). unfold yielded, ending.
  destruct (float_lt u HeapPattern._ALLOCATION_PROBABILITY).
  - destruct (randint_ok HeapPattern._ALLOC_MIN HeapPattern._ALLOC_MAX
                (advance g1)) as (size & Hsize & Hsz); [done|].
    unfold HeapPattern._ALLOC_MIN, HeapPattern._ALLOC_MAX in Hsz.
    rewrite (bind_ok _ _ (advance g1) [] (offset + size)
               (advance (advance g1)))
      by (by rewrite (bind_ok _ _ _ _ _ _ Hsize)).
    eexists _, _, _. split; [reflexivity|]. simpl. lia.
  - destruct (randint_ok 0 (Z.max 1 offset) (advance g1))
      as (back & Hback & ?); [lia|].
    rewrite (bind_ok _ _ _ _ _ _ Hback).
    eexists _, _, _. split; [reflexivity|]. simpl. lia.
Qed.

(** * Stated properties *)

(** ** Construction *)

(** C4. For a non-negative associativity, construction raises (a
    [ValueError], and nothing else) exactly when the associativity exceeds
    one and does not divide the number of lines. In every other case, that is
    associativity 0, associativity 1 or a divisor greater than one,
    construction succeeds, every set of the new cache is empty, the sets are
    those of index 0 up to [num_sets], [tag_set] is empty, and
    [num_sets * lines_per_set = num_lines]. Constructing with line size 64,
    100 lines and associativity 3 raises. *)
Theorem Cache_init_fails_iff_not_divisible (ls nl assoc : Z) :
  0 ≤ assoc →
  ((∃ e, __init__ ls nl assoc = Raise e) ↔ 1 < assoc ∧ nl mod assoc ≠ 0) ∧
  (1 < assoc ∧ nl mod assoc ≠ 0 → __init__ ls nl assoc = Raise ValueError) ∧
  (assoc = 0 ∨ assoc = 1 ∨ (1 < assoc ∧ nl mod assoc = 0) →
   ∃ c, __init__ ls nl assoc = Ok c ∧
        line_size c = ls ∧ num_lines c = nl ∧ associativity c = assoc ∧
        (∀ s, cache c !! s = if bool_decide (0 ≤ s < num_sets c)
                             then Some [] else None) ∧
        tag_set c = ∅ ∧
        num_sets c * lines_per_set c = nl) ∧
  __init__ 64 100 3 = Raise ValueError.
Proof.
  intros Hassoc. split_and!.
  - split.
    + intros [e He]. pose proof (Cache_init_raises_ValueError_only _ _ _ _ He).
      subst e. apply Cache_init_raises_iff in He. lia.
    + intros [H1 Hm]. exists ValueError. apply Cache_init_raises_iff. lia.
  - intros [H1 Hm]. apply Cache_init_raises_iff. lia.
  - unfold __init__. assert (∀ ns lps, ns * lps = nl →
      let c := mkCache ls nl assoc ns lps (empty_sets ns) ∅ in
      line_size c = ls ∧ num_lines c = nl ∧ associativity c = assoc ∧
      (∀ s, cache c !! s = if bool_decide (0 ≤ s < num_sets c)
                           then Some [] else None) ∧
      tag_set c = ∅ ∧ num_sets c * lines_per_set c = nl) as Hmk.
    { intros ns lps Hprod. simpl. split_and!; try done.
      intros s. case_bool_decide as Hs.
      - by apply empty_sets_lookup_in.
      - apply eq_None_not_Some. by rewrite empty_sets_dom. }
    intros [->|[->|[H1 Hm]]]; simpl.
    + eexists. split; [done|]. apply Hmk. lia.
    + eexists. split; [done|]. apply Hmk. lia.
    + destruct (Z.eqb_spec assoc 0); [lia|]. destruct (Z.eqb_spec assoc 1); [lia|].
      rewrite Hm. simpl. eexists. split; [done|]. apply Hmk.
      rewrite (Z.div_mod nl assoc) at 2 by lia. lia.
  - reflexivity.
Qed.

Lemma Cache_init_fails_iff_not_divisible_witness :
  __init__ 64 100 3 = Raise ValueError ∧
  ∃ c, __init__ 64 8 2 = Ok c ∧ num_sets c * lines_per_set c = 8.
Proof.
  split.
  - destruct (Cache_init_fails_iff_not_divisible 64 100 3) as (_ & H & _);
      [lia|].
    apply H. split; [lia | by vm_compute].
  - destruct (Cache_init_fails_iff_not_divisible 64 8 2) as (_ & _ & H & _);
      [lia|].
    destruct H as (c & Hc & _ & _ & _ & _ & _ & Hprod);
      [right; right; split; [lia | reflexivity]|].
    by exists c.
Defined.

(** ** Invariants in reachable states *)

(** C6. In every state reachable from a freshly constructed cache (with a
    positive number of lines and a non-negative associativity) by any
    sequence of probe, insert and reset calls, every set holds at most
    [lines_per_set] tags and no tag twice. *)
Theorem reachable_sets_bounded_and_distinct (ls nl assoc : Z) (c0 c : Cache) :
  0 < nl → 0 ≤ assoc →
  __init__ ls nl assoc = Ok c0 →
  reachable c0 c →
  ∀ s od, cache c !! s = Some od →
          OrderedDict.len od ≤ lines_per_set c ∧ NoDup od.
Proof.
  intros Hnl Hassoc Hinit Hreach s od Hs.
  pose proof (Cache_init_well_formed _ _ _ _ Hinit) as Hwf0.
  destruct (Cache_init_within_capacity _ _ _ _ Hnl Hassoc Hinit) as [Hlps Hcap0].
  split.
  - by eapply (reachable_within_capacity c0 c).
  - eapply wf_nodup; [by eapply reachable_well_formed | done].
Qed.

Lemma reachable_sets_bounded_and_distinct_witness :
  OrderedDict.len [4] ≤ 1 ∧ NoDup [4].
Proof.
  apply (reachable_sets_bounded_and_distinct 64 4 1
           (mkCache 64 4 1 4 1 (empty_sets 4) ∅)
           (exec (Insert 256)
              (exec (Insert 0) (mkCache 64 4 1 4 1 (empty_sets 4) ∅)).2).2
           ltac:(lia) ltac:(lia) eq_refl
           (reach_step _ _ (Insert 256)
              (reach_step _ _ (Insert 0) (reach_init _)))
           0 [4]).
  vm_compute. reflexivity.
Defined.

(** C10. In every state reachable from a freshly constructed cache by any
    sequence of probe, insert and reset calls, [tag_set] is the union of the
    tags held by the sets. A probe leaves [tag_set] as it was; after an
    insert, whether it appended or evicted first, [tag_set] is again that
    union; a reset empties [tag_set] and every set. *)
Theorem reachable_tag_set_is_union (ls nl assoc : Z) (c0 c : Cache) :
  __init__ ls nl assoc = Ok c0 →
  reachable c0 c →
  tag_set c = resident_tags c ∧
  (∀ a, tag_set (is_in_cache a c).2 = tag_set c) ∧
  (∀ a, tag_set (add_to_cache a c).2 = resident_tags (add_to_cache a c).2) ∧
  (tag_set (reset_cache c).2 = ∅ ∧
   ∀ s od, cache (reset_cache c).2 !! s = Some od → od = []).
Proof.
  intros Hinit Hreach.
  pose proof (Cache_init_well_formed _ _ _ _ Hinit) as Hwf0.
  split_and!.
  - by eapply wf_tag_set, reachable_well_formed.
  - intros a. rewrite is_in_cache_eq.
    destruct (get_set_index a c).1 as [s|e]; [|done]. unfold probe_outcome.
    destruct (cache c !! s); [|done]. by case_bool_decide.
  - intros a. eapply wf_tag_set, (reachable_well_formed c0); [done|].
    pose proof (reach_step c0 c (Insert a) Hreach) as Hstep. simpl in Hstep.
    by destruct (add_to_cache a c).
  - done.
  - intros s od Hs. simpl in Hs. by apply empty_sets_lookup in Hs.
Qed.

Lemma reachable_tag_set_is_union_witness :
  tag_set (run [Insert 0; Insert 64; Probe 0; Insert 128; Insert 256]
             (mkCache 64 2 0 1 2 (empty_sets 1) ∅)).2 =
  resident_tags (run [Insert 0; Insert 64; Probe 0; Insert 128; Insert 256]
                   (mkCache 64 2 0 1 2 (empty_sets 1) ∅)).2.
Proof.
  exact (proj1 (reachable_tag_set_is_union 64 2 0
                  (mkCache 64 2 0 1 2 (empty_sets 1) ∅) _ eq_refl
                  (reachable_run _ _))).
Defined.

(** ** Addresses of one line *)

(** C5. Two addresses with the same tag, [a / line_size = b / line_size],
    are treated alike from any cache state: probing either returns the same
    result and leaves the same state, and inserting either leaves the same
    state (with the same outcome). *)
Theorem same_tag_same_treatment (a b : Z) (c : Cache) :
  a / line_size c = b / line_size c →
  is_in_cache a c = is_in_cache b c ∧ add_to_cache a c = add_to_cache b c.
Proof.
  intros Htag.
  assert (get_set_index a c = get_set_index b c) as Hidx.
  { rewrite !get_set_index_eq. unfold py_floordiv. by rewrite Htag. }
  rewrite !is_in_cache_eq, !add_to_cache_eq. by rewrite Hidx, Htag.
Qed.

Lemma same_tag_same_treatment_witness :
  is_in_cache 0 (exec (Insert 0) (mkCache 64 4 1 4 1 (empty_sets 4) ∅)).2 =
    is_in_cache 63 (exec (Insert 0) (mkCache 64 4 1 4 1 (empty_sets 4) ∅)).2 ∧
  add_to_cache 0 (exec (Insert 0) (mkCache 64 4 1 4 1 (empty_sets 4) ∅)).2 =
    add_to_cache 63 (exec (Insert 0) (mkCache 64 4 1 4 1 (empty_sets 4) ∅)).2.
Proof.
  apply (same_tag_same_treatment 0 63). reflexivity.
Defined.

(** ** Scenarios *)

(** C1. Take a fully associative cache of [N] lines and [N] addresses with
    pairwise distinct tags. After inserting them, probing all of them (in any
    order) hits every time. Inserting then one more address with a new tag
    evicts the tag that was probed first, that is the least recently touched
    one: set 0 holds the other tags in the order they were probed, followed by
    the new tag, and any later probes of the [N + 1] addresses miss on the
    evicted tag alone and hit on the others. In particular, with line size 64
    and 4 lines, after inserting 0, 64, 128, 192 all four hit; after inserting
    256, probing 0 misses and 64, 128, 192, 256 hit. *)
Theorem fully_associative_evicts_least_recently_touched :
  (∀ (ls N : Z) (addrs probes later : list Z) (b : Z),
     ls ≠ 0 → 0 < N → Z.of_nat (length addrs) = N →
     NoDup (tags_of ls addrs) →
     probes ≡ₚ addrs →
     b / ls ∉ tags_of ls addrs →
     later ⊆ addrs ++ [b] →
     ∃ c0, __init__ ls N 0 = Ok c0 ∧
       (run ((Insert <$> addrs) ++ (Probe <$> probes) ++ [Insert b]
             ++ (Probe <$> later)) c0).1 =
         replicate (length addrs) Done ++ replicate (length probes) Hit
         ++ [Done]
         ++ ((λ q, if bool_decide (q / ls = hd 0 probes / ls)
                   then Miss else Hit) <$> later) ∧
       cache (run ((Insert <$> addrs) ++ (Probe <$> probes) ++ [Insert b])
                c0).2 !! 0 =
         Some (tail (tags_of ls probes) ++ [b / ls])) ∧
  (∃ c0, __init__ 64 4 0 = Ok c0 ∧
     (run [Insert 0; Insert 64; Insert 128; Insert 192;
           Probe 0; Probe 64; Probe 128; Probe 192;
           Insert 256;
           Probe 0; Probe 64; Probe 128; Probe 192; Probe 256] c0).1 =
       [Done; Done; Done; Done; Hit; Hit; Hit; Hit; Done;
        Miss; Hit; Hit; Hit; Hit]).
Proof.
  split.
  - intros ls N addrs probes later b Hls HN Hlen Hnd Hperm Hb Hlater.
    eexists. split; [reflexivity|].
    assert (lru_state ls N [] (mkCache ls N 0 1 N (empty_sets 1) ∅)) as Hst
      by (by apply Cache_init_lru).
    destruct (lru_fill_touch_overflow ls N addrs probes later b)
      as [Hpre Hpost]; try done.
    split.
    + replace ((Insert <$> addrs) ++ (Probe <$> probes) ++ [Insert b]
               ++ (Probe <$> later))
        with (((Insert <$> addrs) ++ (Probe <$> probes) ++ [Insert b])
              ++ (Probe <$> later)) by (by rewrite <- !app_assoc).
      destruct (run_lru ls N Hls HN
                  (((Insert <$> addrs) ++ (Probe <$> probes) ++ [Insert b])
                   ++ (Probe <$> later)) _ _ Hst) as (c' & -> & _).
      cbn [fst]. rewrite lru_run_app. cbn [fst]. rewrite Hpre. cbn [fst snd].
      rewrite Hpost. by rewrite <- !app_assoc.
    + destruct (run_lru ls N Hls HN
                  ((Insert <$> addrs) ++ (Probe <$> probes) ++ [Insert b])
                  _ _ Hst) as (c' & -> & Hst').
      cbn [snd]. rewrite Hpre in Hst'. apply (lru_set _ _ _ _ Hst').
  - eexists. split; [reflexivity|]. vm_compute. reflexivity.
Qed.

Lemma fully_associative_evicts_least_recently_touched_witness :
  ∃ c0, __init__ 64 4 0 = Ok c0 ∧
    (run ((Insert <$> [0; 64; 128; 192]) ++ (Probe <$> [192; 0; 64; 128])
          ++ [Insert 256] ++ (Probe <$> [0; 64; 128; 192; 256])) c0).1 =
      replicate 4 Done ++ replicate 4 Hit ++ [Done]
      ++ [Hit; Hit; Hit; Miss; Hit] ∧
    cache (run ((Insert <$> [0; 64; 128; 192]) ++ (Probe <$> [192; 0; 64; 128])
                ++ [Insert 256]) c0).2 !! 0 = Some [0; 1; 2; 4].
Proof.
  apply (proj1 fully_associative_evicts_least_recently_touched
           64 4 [0; 64; 128; 192] [192; 0; 64; 128] [0; 64; 128; 192; 256] 256).
  - lia.
  - lia.
  - reflexivity.
  - compute_done.
  - change [192; 0; 64; 128] with ([192] ++ [0; 64; 128]).
    change [0; 64; 128; 192] with ([0; 64; 128] ++ [192]).
    apply Permutation_app_comm.
  - compute_done.
  - compute_done.
Defined.

(** C2. A direct-mapped cache of line size 64 with 4 lines has 4 sets.
    After inserting 0, probing 0 hits and probing 256 misses. Addresses 0 and
    256 have tags 0 and 4, which both select set 0, so inserting 256 evicts
    tag 0: set 0 then holds tag 4 alone, probing 0 misses and probing 256
    hits. *)
Theorem direct_mapped_conflict_scenario :
  ∃ c0, __init__ 64 4 1 = Ok c0 ∧
    num_sets c0 = 4 ∧ lines_per_set c0 = 1 ∧
    (get_tag 0 c0).1 = Ok 0 ∧ (get_tag 256 c0).1 = Ok 4 ∧
    (get_set_index 0 c0).1 = Ok 0 ∧ (get_set_index 256 c0).1 = Ok 0 ∧
    (run [Insert 0; Probe 0; Probe 256] c0).1 = [Done; Hit; Miss] ∧
    cache (run [Insert 0; Probe 0; Probe 256] c0).2 !! 0 = Some [0] ∧
    cache (run [Insert 0; Probe 0; Probe 256; Insert 256] c0).2 !! 0
      = Some [4] ∧
    (run [Insert 0; Probe 0; Probe 256; Insert 256; Probe 0; Probe 256] c0).1
      = [Done; Hit; Miss; Done; Miss; Hit].
Proof.
  eexists. split; [reflexivity|]. vm_compute. by repeat split.
Qed.

(** ** Generated sequences *)

(** C3. For each of the six generators and all valid parameters (positive
    [max_address] and [length], the pattern's own parameter within its
    bound), whatever the random draws, the generator ends normally after
    yielding exactly [length] addresses, each of them in [0..max_address]. *)
Theorem generate_sequence_length_and_range
    (p : pattern) (M L : Z) (g : RandomState) :
  valid_params p M L →
  ending (generate_sequence p M L g) = Ok tt ∧
  Z.of_nat (length (yielded (generate_sequence p M L g))) = L ∧
  ∀ a, a ∈ yielded (generate_sequence p M L g) → 0 ≤ a ≤ M.
Proof.
  intros Hvalid. pose proof Hvalid as (HM & HL & _).
  destruct (generate_sequence_emits p M L g Hvalid) as (Hend & Hlen & Hall).
  split; [done|]. split; [rewrite Hlen; lia|]. by apply Forall_forall.
Qed.

Lemma generate_sequence_length_and_range_witness :
  ending (generate_sequence (Stack 10) 5000 12 sample_random) = Ok tt ∧
  Z.of_nat (length (yielded (generate_sequence (Stack 10) 5000 12
                               sample_random))) = 12 ∧
  ∀ a, a ∈ yielded (generate_sequence (Stack 10) 5000 12 sample_random) →
       0 ≤ a ≤ 5000.
Proof.
  apply (generate_sequence_length_and_range (Stack 10) 5000 12 sample_random).
  unfold valid_params. simpl. lia.
Defined.

(** C9. For each generator: when [max_address <= 0] or [length <= 0], or the
    pattern's own parameter breaks its bound (epsilon not within [0, 1], loop
    size outside [1..max_address], stride below 1, negative stack size), the
    generator raises [ValueError] before yielding any address and before
    drawing any random number; otherwise, and a parameter is either within
    its bound or breaks it, it yields all [length] addresses and ends
    normally. *)
Theorem generate_sequence_validates_before_yielding
    (p : pattern) (M L : Z) (g : RandomState) :
  (M ≤ 0 ∨ L ≤ 0 ∨ violates_bound p M →
   generate_sequence p M L g = ([], Raise ValueError, g)) ∧
  (0 < M → 0 < L → within_bound p M →
   ending (generate_sequence p M L g) = Ok tt ∧
   Z.of_nat (length (yielded (generate_sequence p M L g))) = L) ∧
  (within_bound p M ∨ violates_bound p M).
Proof.
  split_and!; [| |apply within_or_violates].
  - intros Hbad.
    destruct (decide (M ≤ 0 ∨ L ≤ 0)) as [Hcommon|Hcommon].
    { pose proof (validate_common_params_raise M L g Hcommon) as Hv.
      destruct p; simpl;
        unfold SequentialWithJumpsPattern.generate_sequence,
          LoopPattern.generate_sequence, RandomPattern.generate_sequence,
          StridePattern.generate_sequence, StackPattern.generate_sequence,
          HeapPattern.generate_sequence;
        by rewrite (bind_raise _ _ _ _ _ _ Hv). }
    assert (violates_bound p M) as Hviol by tauto.
    assert (_validate_common_params M L g = ([], Ok tt, g)) as Hv
      by (apply validate_common_params_ok; lia).
    destruct p as [eps|ls| |st|ss|];
      cbn [generate_sequence violates_bound] in *; try done.
    + unfold SequentialWithJumpsPattern.generate_sequence.
      rewrite (bind_ok _ _ _ _ _ _ Hv).
      assert (float_le (float_of_Z 0) eps && float_le eps (float_of_Z 1)
              = false) as ->.
      { destruct Hviol as [->| ->]; [done | apply andb_false_r]. }
      simpl negb. cbv iota. by rewrite (bind_raise _ _ g [] ValueError g).
    + unfold LoopPattern.generate_sequence. rewrite (bind_ok _ _ _ _ _ _ Hv).
      assert ((ls <? 1) || (M <? ls) = true) as ->.
      { apply orb_true_iff. rewrite !Z.ltb_lt. done. }
      by rewrite (bind_raise _ _ g [] ValueError g).
    + unfold StridePattern.generate_sequence. rewrite (bind_ok _ _ _ _ _ _ Hv).
      destruct (Z.ltb_spec st 1); [|lia].
      by rewrite (bind_raise _ _ g [] ValueError g).
    + unfold StackPattern.generate_sequence. rewrite (bind_ok _ _ _ _ _ _ Hv).
      destruct (Z.ltb_spec ss 0); [|lia].
      by rewrite (bind_raise _ _ g [] ValueError g).
  - intros HM HL Hp.
    destruct (generate_sequence_emits p M L g) as (Hend & Hlen & _);
      [by repeat split|]. split; [done | rewrite Hlen; lia].
Qed.

Lemma generate_sequence_validates_before_yielding_witness :
  generate_sequence (Loop 51) 50 12 sample_random =
    ([], Raise ValueError, sample_random) ∧
  generate_sequence (Sequential NaN) 50 12 sample_random =
    ([], Raise ValueError, sample_random) ∧
  (ending (generate_sequence (Loop 50) 50 12 sample_random) = Ok tt ∧
   Z.of_nat (length (yielded (generate_sequence (Loop 50) 50 12
                                sample_random))) = 12).
Proof.
  split; [|split].
  - apply (proj1 (generate_sequence_validates_before_yielding
                    (Loop 51) 50 12 sample_random)).
    right. right. simpl. lia.
  - apply (proj1 (generate_sequence_validates_before_yielding
                    (Sequential NaN) 50 12 sample_random)).
    right. right. simpl. by right.
  - apply (proj1 (proj2 (generate_sequence_validates_before_yielding
                           (Loop 50) 50 12 sample_random))); simpl; lia.
Defined.

(** C7. For the stride generator with valid parameters, every two
    consecutive yielded addresses exist and differ by [stride] modulo
    [max_address + 1]. In particular, with [max_address = 999], [length = 10]
    and [stride = 8], every difference is 8 modulo 1000. *)
Theorem StridePattern_consecutive_difference :
  (∀ (M L stride : Z) (g : RandomState) (i : nat),
     0 < M → 0 < L → 1 ≤ stride → Z.of_nat (S i) < L →
     ∃ x y,
       yielded (StridePattern.generate_sequence M L stride g) !! i = Some x ∧
       yielded (StridePattern.generate_sequence M L stride g) !! S i = Some y ∧
       (y - x) mod (M + 1) = stride mod (M + 1)) ∧
  (∀ (g : RandomState) (i : nat),
     (S i < 10)%nat →
     ∃ x y,
       yielded (StridePattern.generate_sequence 999 10 8 g) !! i = Some x ∧
       yielded (StridePattern.generate_sequence 999 10 8 g) !! S i = Some y ∧
       (y - x) mod 1000 = 8).
Proof.
  assert (∀ (M L stride : Z) (g : RandomState) (i : nat),
     0 < M → 0 < L → 1 ≤ stride → Z.of_nat (S i) < L →
     ∃ x y,
       yielded (StridePattern.generate_sequence M L stride g) !! i = Some x ∧
       yielded (StridePattern.generate_sequence M L stride g) !! S i = Some y ∧
       (y - x) mod (M + 1) = stride mod (M + 1)) as Hgen.
  { intros M L stride g i HM HL Hs Hi.
    destruct (StridePattern_yields M L stride g) as (start & _ & ->); try done.
    unfold yielded. simpl. rewrite !list_lookup_fmap.
    rewrite !lookup_seqZ_lt by lia. simpl.
    eexists _, _. split; [done|]. split; [done|].
    rewrite <- Zminus_mod. f_equal. lia. }
  split; [exact Hgen|].
  intros g i Hi. apply (Hgen 999 10 8 g i); lia.
Qed.

Lemma StridePattern_consecutive_difference_witness :
  ∃ x y,
    yielded (StridePattern.generate_sequence 999 10 8 sample_random)
      !! 3%nat = Some x ∧
    yielded (StridePattern.generate_sequence 999 10 8 sample_random)
      !! 4%nat = Some y ∧
    (y - x) mod (999 + 1) = 8 mod (999 + 1).
Proof.
  apply (proj1 StridePattern_consecutive_difference
           999 10 8 sample_random 3%nat); lia.
Defined.

(** C8. For the loop generator with valid parameters, the address at every
    index [i] with [loop_size <= i < length] exists and equals the address at
    index [i mod loop_size]. In particular, with [max_address = 1000],
    [length = 20] and [loop_size = 5], the addresses at indices 7 and 2 are
    equal. *)
Theorem LoopPattern_repeats_with_period :
  (∀ (M L loop_size i : Z) (g : RandomState),
     0 < M → 0 < L → 1 ≤ loop_size ≤ M → loop_size ≤ i < L →
     ∃ x,
       yielded (LoopPattern.generate_sequence M L loop_size g)
         !! Z.to_nat i = Some x ∧
       yielded (LoopPattern.generate_sequence M L loop_size g)
         !! Z.to_nat (i mod loop_size) = Some x) ∧
  (∀ g : RandomState,
     ∃ x,
       yielded (LoopPattern.generate_sequence 1000 20 5 g) !! 7%nat = Some x ∧
       yielded (LoopPattern.generate_sequence 1000 20 5 g) !! 2%nat = Some x).
Proof.
  assert (∀ (M L loop_size i : Z) (g : RandomState),
     0 < M → 0 < L → 1 ≤ loop_size ≤ M → loop_size ≤ i < L →
     ∃ x,
       yielded (LoopPattern.generate_sequence M L loop_size g)
         !! Z.to_nat i = Some x ∧
       yielded (LoopPattern.generate_sequence M L loop_size g)
         !! Z.to_nat (i mod loop_size) = Some x) as Hgen.
  { intros M L loop_size i g HM HL Hs Hi.
    destruct (LoopPattern_yields M L loop_size g) as (start & _ & ->);
      try done.
    pose proof (Z.mod_pos_bound i loop_size ltac:(lia)) as Hmod.
    unfold yielded. simpl. rewrite !list_lookup_fmap.
    rewrite !lookup_seqZ_lt by lia. simpl. rewrite !Z2Nat.id by lia.
    rewrite !Z.add_0_l. eexists. split; [done|]. by rewrite Z.mod_mod by lia. }
  split; [exact Hgen|].
  intros g. apply (Hgen 1000 20 5 7 g); lia.
Qed.

Lemma LoopPattern_repeats_with_period_witness :
  ∃ x,
    yielded (LoopPattern.generate_sequence 1000 20 5 sample_random)
      !! Z.to_nat 13 = Some x ∧
    yielded (LoopPattern.generate_sequence 1000 20 5 sample_random)
      !! Z.to_nat (13 mod 5) = Some x.
Proof.
  apply (proj1 LoopPattern_repeats_with_period
           1000 20 5 13 sample_random); lia.
Defined.

(** * Further properties *)

(** ** The cache in use *)

(** X1. On a cache built with a non-zero line size, a positive number of
    lines and a non-negative associativity, no call ever raises, in any state
    the cache can reach: the set index of any address (negative ones
    included) is one of 0 up to [num_sets] and names an existing set, the
    tag is the floor quotient, a probe answers, an insert and a reset
    return. *)
Theorem calls_never_raise (ls nl assoc : Z) (c0 c : Cache) (a : Z) :
  ls ≠ 0 → 0 < nl → 0 ≤ assoc →
  __init__ ls nl assoc = Ok c0 →
  reachable c0 c →
  (∃ s, get_set_index a c = (Ok s, c) ∧ 0 ≤ s < num_sets c ∧
        is_Some (cache c !! s)) ∧
  get_tag a c = (Ok (a / ls), c) ∧
  (∃ hit, (is_in_cache a c).1 = Ok hit) ∧
  (add_to_cache a c).1 = Ok tt ∧
  (reset_cache c).1 = Ok tt.
Proof.
  intros Hls Hnl Hassoc Hinit Hreach.
  destruct (reachable_ready_init _ _ _ _ _ Hls Hnl Hassoc Hinit Hreach)
    as (Hr & Hlsc & _ & _).
  pose proof Hr as (Hop & _ & _). split_and!.
  - eexists. split; [by apply get_set_index_operational|].
    split; [by apply home_set_range|].
    destruct (home_set_lookup c (tag_of c a) Hop) as [od ->]. by eexists.
  - rewrite get_tag_eq. unfold py_floordiv. rewrite Hlsc.
    by destruct (Z.eqb_spec ls 0).
  - destruct (probe_ready a c Hr) as (od & _ & ->). by eexists.
  - by destruct (insert_ready a c Hr) as (od & c' & _ & -> & _).
  - done.
Qed.

Lemma calls_never_raise_witness :
  (add_to_cache (-5)
     (run [Insert 0; Insert 256; Probe 64]
        (mkCache 64 4 2 2 2 (empty_sets 2) ∅)).2).1 = Ok tt.
Proof.
  apply (calls_never_raise 64 4 2 (mkCache 64 4 2 2 2 (empty_sets 2) ∅) _ (-5)
           ltac:(lia) ltac:(lia) ltac:(lia) eq_refl
           (reachable_run _ [Insert 0; Insert 256; Probe 64])).
Defined.

(** X2. A cache built with line size 0 constructs, but every probe and
    every insert then raises [ZeroDivisionError] and leaves the cache as it
    was. *)
Theorem zero_line_size_always_raises (nl assoc : Z) (c0 c : Cache) (a : Z) :
  __init__ 0 nl assoc = Ok c0 →
  reachable c0 c →
  is_in_cache a c = (Raise ZeroDivisionError, c) ∧
  add_to_cache a c = (Raise ZeroDivisionError, c).
Proof.
  intros Hinit Hreach.
  destruct (Cache_init_line_size _ _ _ _ Hinit) as (Hls & _ & _).
  destruct (reachable_same_config _ _ Hreach) as (Hls' & _).
  rewrite is_in_cache_eq, add_to_cache_eq, get_set_index_eq.
  unfold py_floordiv. by rewrite Hls', Hls.
Qed.

Lemma zero_line_size_always_raises_witness :
  is_in_cache 7 (mkCache 0 4 0 1 4 (empty_sets 1) ∅) =
    (Raise ZeroDivisionError, mkCache 0 4 0 1 4 (empty_sets 1) ∅) ∧
  add_to_cache 7 (mkCache 0 4 0 1 4 (empty_sets 1) ∅) =
    (Raise ZeroDivisionError, mkCache 0 4 0 1 4 (empty_sets 1) ∅).
Proof.
  apply (zero_line_size_always_raises 4 0 (mkCache 0 4 0 1 4 (empty_sets 1) ∅)
           _ 7 eq_refl (reach_init _)).
Defined.

(** X3. Insert, then look up: right after an address is inserted, probing
    any address of the same line hits. *)
Theorem insert_then_probe_hits (ls nl assoc : Z) (c0 c : Cache) (a b : Z) :
  ls ≠ 0 → 0 < nl → 0 ≤ assoc →
  __init__ ls nl assoc = Ok c0 →
  reachable c0 c →
  a / ls = b / ls →
  (run [Insert a; Probe b] c).1 = [Done; Hit].
Proof.
  intros Hls Hnl Hassoc Hinit Hreach Hab.
  destruct (reachable_ready_init _ _ _ _ _ Hls Hnl Hassoc Hinit Hreach)
    as (Hr & Hlsc & _ & _).
  destruct (insert_ready a c Hr) as (od & c' & Hod & Hadd & Hc' & Hr' & Hcfg).
  destruct Hcfg as (Hls' & _ & Hassoc' & Hns' & _).
  simpl. rewrite Hadd. simpl.
  destruct (probe_ready b c' Hr') as (od' & Hod' & Hprobe).
  assert (tag_of c' b = tag_of c a) as Htag
    by (unfold tag_of; rewrite Hls', Hlsc; done).
  assert (home_set c' (tag_of c' b) = home_set c (tag_of c a)) as Hhome
    by (unfold home_set; by rewrite Htag, Hassoc', Hns').
  rewrite Hhome, Hc', lookup_insert_eq in Hod'. injection Hod' as <-.
  destruct (is_in_cache b c') as [r c'']. simpl in *. rewrite Hprobe, Htag.
  by rewrite bool_decide_eq_true_2 by apply lru_insert_elem.
Qed.

Lemma insert_then_probe_hits_witness :
  (run [Insert 130; Probe 191]
     (run [Insert 0; Insert 256] (mkCache 64 4 1 4 1 (empty_sets 4) ∅)).2).1
  = [Done; Hit].
Proof.
  apply (insert_then_probe_hits 64 4 1 (mkCache 64 4 1 4 1 (empty_sets 4) ∅)
           _ 130 191 ltac:(lia) ltac:(lia) ltac:(lia) eq_refl
           (reachable_run _ [Insert 0; Insert 256])).
  reflexivity.
Defined.

(** X4. The global [tag_set] answers the same question as the per-set
    lookup: a probe hits exactly when the tag of the address is in
    [tag_set]. *)
Theorem probe_hits_iff_in_tag_set (ls nl assoc : Z) (c0 c : Cache) (a : Z) :
  ls ≠ 0 → 0 < nl → 0 ≤ assoc →
  __init__ ls nl assoc = Ok c0 →
  reachable c0 c →
  (is_in_cache a c).1 = Ok (bool_decide (a / ls ∈ tag_set c)).
Proof.
  intros Hls Hnl Hassoc Hinit Hreach.
  destruct (reachable_ready_init _ _ _ _ _ Hls Hnl Hassoc Hinit Hreach)
    as (Hr & Hlsc & _ & _).
  destruct (probe_ready a c Hr) as (od & Hod & ->).
  destruct Hr as (_ & Hwf & _). unfold tag_of in *. rewrite Hlsc in *.
  f_equal. apply bool_decide_ext. symmetry. by apply tag_set_home.
Qed.

Lemma probe_hits_iff_in_tag_set_witness :
  (is_in_cache 300
     (run [Insert 0; Insert 256; Insert 512]
        (mkCache 64 4 2 2 2 (empty_sets 2) ∅)).2).1 =
  Ok (bool_decide
        (300 / 64 ∈ tag_set (run [Insert 0; Insert 256; Insert 512]
                               (mkCache 64 4 2 2 2 (empty_sets 2) ∅)).2)).
Proof.
  apply (probe_hits_iff_in_tag_set 64 4 2 (mkCache 64 4 2 2 2 (empty_sets 2) ∅)
           _ 300 ltac:(lia) ltac:(lia) ltac:(lia) eq_refl
           (reachable_run _ [Insert 0; Insert 256; Insert 512])).
Defined.

(** X5. A reset brings the cache back to exactly the state construction
    gave it, whatever happened in between. *)
Theorem reset_restores_initial_state (ls nl assoc : Z) (c0 c : Cache) :
  __init__ ls nl assoc = Ok c0 →
  reachable c0 c →
  reset_cache c = (Ok tt, c0).
Proof.
  intros Hinit Hreach.
  destruct (reachable_same_config _ _ Hreach) as (H1 & H2 & H3 & H4 & H5).
  unfold reset_cache, set_tag_set, set_cache. simpl.
  rewrite H1, H2, H3, H4, H5. f_equal.
  revert Hinit. unfold __init__. repeat case_match; by intros [= <-].
Qed.

Lemma reset_restores_initial_state_witness :
  reset_cache (run [Insert 0; Insert 64; Probe 0; Insert 128]
                 (mkCache 64 2 0 1 2 (empty_sets 1) ∅)).2 =
  (Ok tt, mkCache 64 2 0 1 2 (empty_sets 1) ∅).
Proof.
  apply (reset_restores_initial_state 64 2 0 _ _ eq_refl
           (reachable_run _ [Insert 0; Insert 64; Probe 0; Insert 128])).
Defined.

(** X6. The sets are independent: a probe or an insert of an address
    changes no set other than the one its tag selects, in any state at
    all. *)
Theorem other_sets_untouched (c : Cache) (a s : Z) :
  s ≠ home_set c (a / line_size c) →
  cache (is_in_cache a c).2 !! s = cache c !! s ∧
  cache (add_to_cache a c).2 !! s = cache c !! s.
Proof.
  intros Hs. rewrite is_in_cache_eq, add_to_cache_eq.
  destruct (get_set_index a c).1 as [s'|e] eqn:Hidx; [|done].
  apply get_set_index_home in Hidx. subst s'.
  unfold probe_outcome, insert_outcome.
  destruct (cache c !! home_set c (a / line_size c)) as [od|]; [|done].
  split.
  - case_bool_decide; [|done]. simpl. by rewrite lookup_insert_ne.
  - case_bool_decide; [simpl; by rewrite lookup_insert_ne|].
    destruct (lines_per_set c <=? OrderedDict.len od).
    + destruct od as [|x rest]; [done|].
      case_bool_decide; simpl; by rewrite lookup_insert_ne.
    + simpl. by rewrite lookup_insert_ne.
Qed.

Lemma other_sets_untouched_witness :
  cache (is_in_cache 64 (exec (Insert 0)
                           (mkCache 64 4 1 4 1 (empty_sets 4) ∅)).2).2 !! 0 =
    cache (exec (Insert 0) (mkCache 64 4 1 4 1 (empty_sets 4) ∅)).2 !! 0 ∧
  cache (add_to_cache 64 (exec (Insert 0)
                            (mkCache 64 4 1 4 1 (empty_sets 4) ∅)).2).2 !! 0 =
    cache (exec (Insert 0) (mkCache 64 4 1 4 1 (empty_sets 4) ∅)).2 !! 0.
Proof.
  apply (other_sets_untouched
           (exec (Insert 0) (mkCache 64 4 1 4 1 (empty_sets 4) ∅)).2 64 0).
  vm_compute. discriminate.
Defined.

(** X7. Direct mapping: a set holds the line inserted last and nothing
    else. Right after inserting an address, a probe of any address whose tag
    is congruent modulo the number of lines hits if it is the same line and
    misses otherwise, whatever the cache held before. *)
Theorem direct_mapped_keeps_last_inserted (ls nl : Z) (c0 c : Cache) (a b : Z) :
  ls ≠ 0 → 0 < nl →
  __init__ ls nl 1 = Ok c0 →
  reachable c0 c →
  (a / ls) mod nl = (b / ls) mod nl →
  (run [Insert a; Probe b] c).1 =
    [Done; if bool_decide (a / ls = b / ls) then Hit else Miss].
Proof.
  intros Hls Hnl Hinit Hreach Hab.
  destruct (reachable_ready_init ls nl 1 c0 c) as (Hr & Hlsc & _ & Hassoc);
    try done.
  assert (num_sets c = nl ∧ lines_per_set c = 1) as [Hns Hlps].
  { destruct (reachable_same_config _ _ Hreach) as (_ & _ & _ & -> & ->).
    injection Hinit as <-. done. }
  destruct (insert_ready a c Hr) as (od & c' & Hod & Hadd & Hc' & Hr' & Hcfg).
  destruct Hcfg as (Hls' & _ & Hassoc' & Hns' & _).
  assert (lru_insert 1 (tag_of c a) od = [tag_of c a]) as Hone.
  { destruct Hr as (_ & _ & Hcap). specialize (Hcap _ _ Hod).
    unfold OrderedDict.len in Hcap. rewrite Hlps in Hcap.
    unfold lru_insert, touch, OrderedDict.len.
    destruct od as [|x [|y od]]; simpl in *; [done| |lia].
    case_bool_decide as Hx.
    - apply list_elem_of_singleton in Hx as ->.
      by rewrite filter_cons_False by (by intros ?).
    - done. }
  simpl. rewrite Hadd. simpl.
  destruct (probe_ready b c' Hr') as (od' & Hod' & Hprobe).
  assert (home_set c' (tag_of c' b) = home_set c (tag_of c a)) as Hhome.
  { unfold home_set, tag_of. rewrite Hassoc', Hns', Hls', Hassoc, Hns, Hlsc.
    simpl. done. }
  rewrite Hhome, Hc', lookup_insert_eq, Hlps, Hone in Hod'.
  injection Hod' as <-.
  destruct (is_in_cache b c') as [r c'']. simpl in *. rewrite Hprobe.
  unfold tag_of. rewrite Hls', Hlsc.
  destruct (decide (a / ls = b / ls)) as [Heq|Hne].
  - rewrite !bool_decide_eq_true_2; [done..|]. rewrite Heq. left.
  - rewrite !bool_decide_eq_false_2; [done..|].
    intros H%list_elem_of_singleton. by apply Hne.
Qed.

Lemma direct_mapped_keeps_last_inserted_witness :
  (run [Insert 512; Probe 0]
     (run [Insert 0; Insert 64] (mkCache 64 4 1 4 1 (empty_sets 4) ∅)).2).1 =
  [Done; if bool_decide (512 / 64 = 0 / 64) then Hit else Miss].
Proof.
  apply (direct_mapped_keeps_last_inserted 64 4
           (mkCache 64 4 1 4 1 (empty_sets 4) ∅) _ 512 0
           ltac:(lia) ltac:(lia) eq_refl
           (reachable_run _ [Insert 0; Insert 64])).
  reflexivity.
Defined.

(** X8. The LRU guarantee. After an address is inserted (or, being
    resident, touched by an insert), its line stays in the cache through any
    probes and inserts of any addresses, as long as fewer than
    [lines_per_set] of them follow: probing it then still hits. *)
Theorem recently_used_line_survives
    (ls nl assoc : Z) (c0 c : Cache) (a : Z) (os : list op) :
  ls ≠ 0 → 0 < nl → 0 ≤ assoc →
  __init__ ls nl assoc = Ok c0 →
  reachable c0 c →
  forallb is_access os = true →
  Z.of_nat (length os) < lines_per_set c →
  last (run (Insert a :: os ++ [Probe a]) c).1 = Some Hit.
Proof.
  intros Hls Hnl Hassoc Hinit Hreach Hos Hlen.
  destruct (reachable_ready_init _ _ _ _ _ Hls Hnl Hassoc Hinit Hreach)
    as (Hr & _).
  destruct (insert_ready a c Hr) as (od & c1 & Hod & Hadd & Hc1 & Hr1 & Hcfg).
  destruct Hcfg as (Hc1ls & _ & Hc1a & Hc1n & Hc1l).
  rewrite run_cons, run_app. cbn [fst snd exec]. rewrite Hadd. cbn [fst snd].
  set (t := tag_of c a).
  assert (home_set c1 t = home_set c t) as Hhome1
    by (unfold home_set; by rewrite Hc1a, Hc1n).
  destruct (lru_insert_last (lines_per_set c) t od) as [pre Hpre].
  destruct (recent_run 0 t os c1 (pre ++ [t])) as (od2 & Hod2 & Hrec & Hr2 & Hcfg);
    try done.
  { by rewrite Hhome1, Hc1, lookup_insert_eq, <- Hpre. }
  { apply recent_last. }
  { rewrite Hc1l. simpl. lia. }
  destruct Hcfg as (Hc2ls & _ & Hc2a & Hc2n & _).
  destruct (probe_ready a (run os c1).2 Hr2) as (od3 & Hod3 & Hprobe).
  assert (tag_of (run os c1).2 a = t) as Htag
    by (unfold tag_of, t; by rewrite Hc2ls, Hc1ls).
  assert (home_set (run os c1).2 t = home_set c1 t) as Hhome2
    by (unfold home_set; by rewrite Hc2a, Hc2n).
  rewrite Htag, Hhome2, Hod2 in Hod3. injection Hod3 as <-.
  rewrite Htag, bool_decide_eq_true_2 in Hprobe by (by eapply recent_elem).
  rewrite app_comm_cons, last_app. simpl.
  by destruct (is_in_cache a (run os c1).2) as [[[]|] ?].
Qed.

Lemma recently_used_line_survives_witness :
  last (run (Insert 0 :: [Insert 64; Probe 999; Insert 128] ++ [Probe 0])
          (run [Insert 192; Insert 256]
             (mkCache 64 4 0 1 4 (empty_sets 1) ∅)).2).1 = Some Hit.
Proof.
  apply (recently_used_line_survives 64 4 0
           (mkCache 64 4 0 1 4 (empty_sets 1) ∅) _ 0
           [Insert 64; Probe 999; Insert 128]
           ltac:(lia) ltac:(lia) ltac:(lia) eq_refl
           (reachable_run _ [Insert 192; Insert 256])).
  - reflexivity.
  - vm_compute. reflexivity.
Defined.

(** X9. The cache never holds more lines than it has: in every reachable
    state the number of resident tags is at most [num_lines]. *)
Theorem resident_tags_at_most_num_lines (ls nl assoc : Z) (c0 c : Cache) :
  ls ≠ 0 → 0 < nl → 0 ≤ assoc →
  __init__ ls nl assoc = Ok c0 →
  reachable c0 c →
  Z.of_nat (size (tag_set c)) ≤ nl ∧
  Z.of_nat (size (resident_tags c)) ≤ nl.
Proof.
  intros Hls Hnl Hassoc Hinit Hreach.
  destruct (reachable_ready_init _ _ _ _ _ Hls Hnl Hassoc Hinit Hreach)
    as (Hr & _ & <- & _).
  pose proof (ready_size_tag_set c Hr) as Hsize.
  destruct Hr as (_ & Hwf & _). by rewrite <- (wf_tag_set _ Hwf).
Qed.

Lemma resident_tags_at_most_num_lines_witness :
  Z.of_nat (size (tag_set
                    (run [Insert 0; Insert 64; Insert 128; Insert 192]
                       (mkCache 64 2 0 1 2 (empty_sets 1) ∅)).2)) ≤ 2 ∧
  Z.of_nat (size (resident_tags
                    (run [Insert 0; Insert 64; Insert 128; Insert 192]
                       (mkCache 64 2 0 1 2 (empty_sets 1) ∅)).2)) ≤ 2.
Proof.
  apply (resident_tags_at_most_num_lines 64 2 0
           (mkCache 64 2 0 1 2 (empty_sets 1) ∅) _
           ltac:(lia) ltac:(lia) ltac:(lia) eq_refl
           (reachable_run _ [Insert 0; Insert 64; Insert 128; Insert 192])).
Defined.

(** X10. A cache of zero lines in fully associative mode constructs, but
    can hold nothing: every probe misses and every insert raises [KeyError]
    (there is no line to evict), leaving the cache as it was. *)
Theorem zero_lines_insert_raises (ls : Z) (c0 c : Cache) (a : Z) :
  ls ≠ 0 →
  __init__ ls 0 0 = Ok c0 →
  reachable c0 c →
  c = c0 ∧
  is_in_cache a c = (Ok false, c) ∧
  add_to_cache a c = (Raise KeyError, c).
Proof.
  intros Hls [= <-] Hreach.
  set (c0 := {| line_size := ls; num_lines := 0; associativity := 0;
                num_sets := 1; lines_per_set := 0;
                cache := empty_sets 1; tag_set := ∅ |}) in *.
  assert (∀ b, is_in_cache b c0 = (Ok false, c0) ∧
               add_to_cache b c0 = (Raise KeyError, c0)) as Hcalls.
  { intros b. rewrite is_in_cache_eq, add_to_cache_eq, get_set_index_eq.
    unfold py_floordiv. simpl. by destruct (Z.eqb_spec ls 0). }
  assert (c = c0) as ->.
  { induction Hreach as [|c o _ ->]; [done|].
    destruct o as [b|b|]; simpl; [| |done].
    - by rewrite (proj1 (Hcalls b)).
    - by rewrite (proj2 (Hcalls b)). }
  split; [done | apply Hcalls].
Qed.

Lemma zero_lines_insert_raises_witness :
  mkCache 64 0 0 1 0 (empty_sets 1) ∅ = mkCache 64 0 0 1 0 (empty_sets 1) ∅ ∧
  is_in_cache 7 (mkCache 64 0 0 1 0 (empty_sets 1) ∅) =
    (Ok false, mkCache 64 0 0 1 0 (empty_sets 1) ∅) ∧
  add_to_cache 7 (mkCache 64 0 0 1 0 (empty_sets 1) ∅) =
    (Raise KeyError, mkCache 64 0 0 1 0 (empty_sets 1) ∅).
Proof.
  apply (zero_lines_insert_raises 64 _ _ 7 ltac:(lia) eq_refl (reach_init _)).
Defined.

(** ** Sampling parameters and generating with them *)

(** X11. The loop pattern samples its loop size from 10 up to the smaller
    of 1000 and [max_address]: when [max_address] is below 10 that range is
    empty and the sampling itself raises [ValueError], whatever the length;
    otherwise it returns the two common parameters unchanged and a loop size
    within the range. *)
Theorem LoopPattern_random_params_need_room (M L : Z) (g : RandomState) :
  (M < 10 →
   LoopPattern.generate_random_params M L g = ([], Raise ValueError, g)) ∧
  (10 ≤ M →
   ∃ loop_size,
     LoopPattern.generate_random_params M L g =
       ([], Ok (M, L, loop_size), advance g) ∧
     10 ≤ loop_size ≤ Z.min 1000 M).
Proof.
  rewrite LoopPattern_generate_random_params_eq. split; intros HM.
  - by destruct (Z.ltb_spec M 10); [|lia].
  - destruct (Z.ltb_spec M 10); [lia|]. eexists. split; [done|].
    pose proof (Z.mod_pos_bound (raw g (pos g)) (Z.min 1000 M - 10 + 1)). lia.
Qed.

Lemma LoopPattern_random_params_need_room_witness :
  LoopPattern.generate_random_params 9 16 sample_random =
    ([], Raise ValueError, sample_random) ∧
  ∃ loop_size,
    LoopPattern.generate_random_params 5000 16 sample_random =
      ([], Ok (5000, 16, loop_size), advance sample_random) ∧
    10 ≤ loop_size ≤ Z.min 1000 5000.
Proof.
  split.
  - apply (proj1 (LoopPattern_random_params_need_room 9 16 sample_random)). lia.
  - apply (proj2 (LoopPattern_random_params_need_room 5000 16 sample_random)).
    lia.
Defined.

(** X12. A pattern's own random parameters are always accepted by its
    generator. For positive [max_address] and [length] (and, for the loop
    pattern, [max_address] of at least 10), sampling succeeds for each of the
    six patterns, hands the common parameters through, and generating with
    the sampled parameters yields exactly [length] addresses of
    [0..max_address] and ends normally. Of [random.uniform] only its
    documented range is assumed. *)
Theorem random_params_then_sequence
    (uniform : pyfloat → pyfloat → Gen pyfloat)
    (k : pattern_class) (M L : Z) (g : RandomState) :
  uniform_contract uniform →
  0 < M → 0 < L → (k = LoopClass → 10 ≤ M) →
  ∃ p g',
    generate_random_params uniform k M L g = ([], Ok (p, M, L), g') ∧
    class_of p = k ∧
    ending (generate_sequence p M L g') = Ok tt ∧
    Z.of_nat (length (yielded (generate_sequence p M L g'))) = L ∧
    ∀ a, a ∈ yielded (generate_sequence p M L g') → 0 ≤ a ≤ M.
Proof.
  intros Hu HM HL Hloop.
  destruct (generate_random_params_valid uniform k M L g Hu HM HL Hloop)
    as (p & g' & Hparams & Hclass & Hvalid).
  exists p, g'. split; [done|]. split; [done|].
  destruct (generate_sequence_emits p M L g' Hvalid) as (Hend & Hlen & Hall).
  split; [done|]. split; [rewrite Hlen; lia|]. by apply Forall_forall.
Qed.

Lemma random_params_then_sequence_witness :
  ∃ p g',
    generate_random_params sample_uniform LoopClass 5000 16 sample_random =
      ([], Ok (p, 5000, 16), g') ∧
    class_of p = LoopClass ∧
    ending (generate_sequence p 5000 16 g') = Ok tt ∧
    Z.of_nat (length (yielded (generate_sequence p 5000 16 g'))) = 16 ∧
    ∀ a, a ∈ yielded (generate_sequence p 5000 16 g') → 0 ≤ a ≤ 5000.
Proof.
  apply (random_params_then_sequence sample_uniform LoopClass 5000 16
           sample_random sample_uniform_contract); lia.
Defined.

(** ** Shapes of the sequences *)

(** X13. The loop generator stays inside a window: every address lies at
    most [loop_size - 1] above the first one yielded, and below
    [max_address], which is never yielded. *)
Theorem LoopPattern_stays_in_window
    (M L loop_size : Z) (g : RandomState) :
  0 < M → 0 < L → 1 ≤ loop_size ≤ M →
  ∃ first,
    yielded (LoopPattern.generate_sequence M L loop_size g) !! 0%nat
      = Some first ∧
    0 ≤ first ≤ M - loop_size ∧
    ∀ a, a ∈ yielded (LoopPattern.generate_sequence M L loop_size g) →
         first ≤ a < first + loop_size ∧ a < M.
Proof.
  intros HM HL Hs.
  destruct (LoopPattern_yields M L loop_size g) as (start & Hstart & ->);
    try done.
  unfold yielded. simpl. exists start. split_and!; try lia.
  - rewrite list_lookup_fmap, lookup_seqZ_lt by lia. simpl.
    rewrite Z.add_0_l, Z.mod_0_l by lia. f_equal. lia.
  - intros a (i & -> & _)%list_elem_of_fmap.
    pose proof (Z.mod_pos_bound i loop_size). lia.
Qed.

Lemma LoopPattern_stays_in_window_witness :
  ∃ first,
    yielded (LoopPattern.generate_sequence 1000 20 5 sample_random) !! 0%nat
      = Some first ∧
    0 ≤ first ≤ 1000 - 5 ∧
    ∀ a, a ∈ yielded (LoopPattern.generate_sequence 1000 20 5 sample_random) →
         first ≤ a < first + 5 ∧ a < 1000.
Proof.
  apply (LoopPattern_stays_in_window 1000 20 5 sample_random); lia.
Defined.

(** X14. The stack generator moves in small steps: any two successive
    addresses exist and differ by at most 10. *)
Theorem StackPattern_steps_at_most_10
    (M L stack_size : Z) (g : RandomState) (i : nat) :
  0 < M → 0 < L → 0 ≤ stack_size → Z.of_nat (S i) < L →
  ∃ x y,
    yielded (StackPattern.generate_sequence M L stack_size g) !! i = Some x ∧
    yielded (StackPattern.generate_sequence M L stack_size g) !! S i = Some y ∧
    -10 ≤ y - x ≤ 10.
Proof.
  intros HM HL Hs Hi.
  pose proof (StackPattern_emits M L HM HL stack_size g Hs) as Hemits.
  destruct (lookup_emitted M L _ i Hemits HL) as (x & Hx & Hxr); [lia|].
  destruct (lookup_emitted M L _ (S i) Hemits HL) as (y & Hy & Hyr); [lia|].
  exists x, y. split; [done|]. split; [done|].
  destruct (StackPattern_chain M L stack_size g HM HL Hs) as (sp0 & Hchain).
  destruct (chain_lookup _ _ _ _ _ _ Hchain Hx Hy) as (m & Hm & ->). lia.
Qed.

Lemma StackPattern_steps_at_most_10_witness :
  ∃ x y,
    yielded (StackPattern.generate_sequence 5000 12 10 sample_random)
      !! 3%nat = Some x ∧
    yielded (StackPattern.generate_sequence 5000 12 10 sample_random)
      !! 4%nat = Some y ∧
    -10 ≤ y - x ≤ 10.
Proof.
  apply (StackPattern_steps_at_most_10 5000 12 10 sample_random 3); lia.
Defined.

(** X15. With a jump probability of zero the sequential generator never
    jumps: each address is the previous one plus 1, wrapping from
    [max_address] to 0. *)
Theorem SequentialWithJumpsPattern_zero_epsilon_never_jumps
    (M L : Z) (epsilon : pyfloat) (g : RandomState) (i : nat) :
  0 < M → 0 < L →
  float_le (float_of_Z 0) epsilon = true →
  float_le epsilon (float_of_Z 0) = true →
  Z.of_nat (S i) < L →
  ∃ x y,
    yielded (SequentialWithJumpsPattern.generate_sequence M L epsilon g)
      !! i = Some x ∧
    yielded (SequentialWithJumpsPattern.generate_sequence M L epsilon g)
      !! S i = Some y ∧
    y = (x + 1) mod (M + 1).
Proof.
  intros HM HL H0 Hzero Hi.
  assert (float_le epsilon (float_of_Z 1) = true) as H1.
  { destruct epsilon as [q| | |]; try done.
    eapply float_le_trans; [exact Hzero | reflexivity]. }
  pose proof (SequentialWithJumpsPattern_emits M L HM HL epsilon g H0 H1)
    as Hemits.
  destruct (lookup_emitted M L _ i Hemits HL) as (x & Hx & _); [lia|].
  destruct (lookup_emitted M L _ (S i) Hemits HL) as (y & Hy & _); [lia|].
  exists x, y. split; [done|]. split; [done|].
  destruct (SequentialWithJumpsPattern_chain_zero M L epsilon g HM HL H0 Hzero)
    as (start & Hchain).
  exact (chain_lookup _ _ _ _ _ _ Hchain Hx Hy).
Qed.

Lemma SequentialWithJumpsPattern_zero_epsilon_never_jumps_witness :
  ∃ x y,
    yielded (SequentialWithJumpsPattern.generate_sequence 50 12
               (float_of_Z 0) sample_random) !! 3%nat = Some x ∧
    yielded (SequentialWithJumpsPattern.generate_sequence 50 12
               (float_of_Z 0) sample_random) !! 4%nat = Some y ∧
    y = (x + 1) mod (50 + 1).
Proof.
  apply (SequentialWithJumpsPattern_zero_epsilon_never_jumps 50 12
           (float_of_Z 0) sample_random 3); (lia || reflexivity).
Defined.

(** ** Replaying a sequence: the labels of the driver *)

(** X16. The loop of [generate_data] on a freshly built cache never raises
    and gives one label, 0 or 1, per address. A label 1 needs an earlier
    address of the same line in the sequence, so the first label is 0; and
    an address that directly follows one of the same line is labelled 1. *)
Theorem replay_labels (ls nl assoc : Z) (c0 : Cache) (ys : list Z) :
  ls ≠ 0 → 0 < nl → 0 ≤ assoc →
  __init__ ls nl assoc = Ok c0 →
  ∃ labels,
    (CacheDataset.replay ys c0).1 = Ok (ys, labels) ∧
    length labels = length ys ∧
    (∀ l, l ∈ labels → l = 0 ∨ l = 1) ∧
    (∀ i, labels !! i = Some 1 →
       ∃ j a' a, (j < i)%nat ∧ ys !! j = Some a' ∧ ys !! i = Some a ∧
                 a' / ls = a / ls) ∧
    (∀ i a b, ys !! i = Some a → ys !! S i = Some b → a / ls = b / ls →
              labels !! S i = Some 1).
Proof.
  intros Hls Hnl Hassoc Hinit.
  pose proof (Cache_init_ready _ _ _ _ Hls Hnl Hassoc Hinit) as Hr.
  destruct (Cache_init_line_size _ _ _ _ Hinit) as (Hlsc & _ & _).
  assert (tag_set c0 = ∅) as Hempty.
  { revert Hinit. unfold __init__. repeat case_match; by intros [= <-]. }
  destruct (replay_ready ys c0 Hr) as (labels & Hrep & Hlen & Hall).
  exists labels. split_and!; try done.
  - by apply Forall_forall.
  - intros i Hi.
    destruct (replay_hit_seen ys c0 labels i Hr Hrep Hi) as (a & Ha & Hcase).
    destruct Hcase as [Hres|(j & a' & Hj & Ha' & Heq)].
    + rewrite Hempty in Hres. by apply not_elem_of_empty in Hres.
    + unfold tag_of in Heq. rewrite Hlsc in Heq. by exists j, a', a.
  - intros i a b Ha Hb Hab.
    eapply (replay_repeat_hits ys c0); try done.
    unfold tag_of. by rewrite Hlsc.
Qed.

Lemma replay_labels_witness :
  ∃ labels,
    (CacheDataset.replay [0; 70; 64; 256; 5]
       (mkCache 64 4 1 4 1 (empty_sets 4) ∅)).1
      = Ok ([0; 70; 64; 256; 5], labels) ∧
    length labels = length [0; 70; 64; 256; 5] ∧
    (∀ l, l ∈ labels → l = 0 ∨ l = 1) ∧
    (∀ i, labels !! i = Some 1 →
       ∃ j a' a, (j < i)%nat ∧ [0; 70; 64; 256; 5] !! j = Some a' ∧
                 [0; 70; 64; 256; 5] !! i = Some a ∧ a' / 64 = a / 64) ∧
    (∀ i a b, [0; 70; 64; 256; 5] !! i = Some a →
              [0; 70; 64; 256; 5] !! S i = Some b → a / 64 = b / 64 →
              labels !! S i = Some 1).
Proof.
  apply (replay_labels 64 4 1 (mkCache 64 4 1 4 1 (empty_sets 4) ∅)
           [0; 70; 64; 256; 5] ltac:(lia) ltac:(lia) ltac:(lia) eq_refl).
Defined.

(** X17. A fully associative cache with room for every line of the
    sequence never evicts: replayed on a fresh cache whose number of lines is
    at least the number of distinct tags, an address is labelled 1 exactly
    when an earlier address had its tag. *)
Theorem replay_without_evictions (ls nl : Z) (c0 : Cache) (ys : list Z) :
  ls ≠ 0 → 0 < nl →
  __init__ ls nl 0 = Ok c0 →
  Z.of_nat (size (list_to_set (tags_of ls ys) : gset Z)) ≤ nl →
  (CacheDataset.replay ys c0).1 = Ok (ys, seen_labels [] (tags_of ls ys)).
Proof.
  intros Hls Hnl Hinit Hfit.
  pose proof (Cache_init_ready ls nl 0 c0 Hls Hnl ltac:(lia) Hinit) as Hr.
  destruct (Cache_init_line_size _ _ _ _ Hinit) as (Hlsc & Hnlc & Hassoc).
  rewrite <- Hlsc. apply replay_seen_labels; try done.
  - injection Hinit as <-. simpl. intros x. split.
    + intros []%not_elem_of_empty.
    + intros []%not_elem_of_nil.
  - simpl. by rewrite Hlsc, Hnlc.
Qed.

Lemma replay_without_evictions_witness :
  (CacheDataset.replay [0; 64; 5; 128; 70; 0]
     (mkCache 64 4 0 1 4 (empty_sets 1) ∅)).1 =
  Ok ([0; 64; 5; 128; 70; 0],
      seen_labels [] (tags_of 64 [0; 64; 5; 128; 70; 0])).
Proof.
  apply (replay_without_evictions 64 4 (mkCache 64 4 0 1 4 (empty_sets 1) ∅)
           [0; 64; 5; 128; 70; 0] ltac:(lia) ltac:(lia) eq_refl).
  vm_compute. discriminate.
Defined.

(** ** One sample of the dataset *)



(** X19. Construction of the dataset does not check that the line counts
    are multiples of the associativity options: whenever the pair drawn has
    an associativity other than 0 and 1 that does not divide the line count,
    [generate_data] raises [ValueError], before any address is generated. *)
Theorem generate_data_raises_on_indivisible_pair
    (uniform : pyfloat → pyfloat → Gen pyfloat)
    (d : CacheDataset.t) (g g1 g2 : RandomState) (nl a : Z) :
  CacheDataset.choice (CacheDataset.cache_lines d) g
    = (CacheDataset.Returns nl, g1) →
  CacheDataset.choice (CacheDataset.associativity_options d) g1
    = (CacheDataset.Returns a, g2) →
  a ≠ 0 → a ≠ 1 → nl mod a ≠ 0 →
  CacheDataset.generate_data uniform d g = CacheDataset.Raises ValueError.
Proof.
  intros H1 H2 Ha0 Ha1 Hmod.
  assert (__init__ 64 nl a = Raise ValueError) as Hinit
    by (by apply Cache_init_raises_iff).
  unfold CacheDataset.generate_data.
  unfold mbind at 1, CacheDataset.D_bind at 1. rewrite H1.
  unfold mbind at 1, CacheDataset.D_bind at 1. rewrite H2.
  unfold mbind at 1, CacheDataset.D_bind at 1, CacheDataset.construct.
  by rewrite Hinit.
Qed.

Lemma generate_data_raises_on_indivisible_pair_witness :
  CacheDataset.generate_data sample_uniform
    (CacheDataset.mk 16 99 [100] [3] 5 true None 0
       [SequentialClass; LoopClass; RandomClass; StrideClass;
        StackClass; HeapClass]) sample_random =
  CacheDataset.Raises ValueError.
Proof.
  apply (generate_data_raises_on_indivisible_pair sample_uniform
           (CacheDataset.mk 16 99 [100] [3] 5 true None 0
              [SequentialClass; LoopClass; RandomClass; StrideClass;
               StackClass; HeapClass])
           sample_random (advance sample_random)
           (advance (advance sample_random)) 100 3 eq_refl eq_refl);
    [lia | lia | by vm_compute].
Defined.





(** X22. The dump of a cache built with a non-zero line size, a positive
    number of lines and a non-negative associativity, after any calls: it
    never raises, leaves the cache as it was, and reads "Cache is empty"
    exactly when no tag is resident. *)
Theorem str_says_empty_iff_nothing_resident ls nl assoc c0 c :
  ls ≠ 0 → 0 < nl → 0 ≤ assoc → __init__ ls nl assoc = Ok c0 →
  reachable c0 c →
  ∃ s, __str__ c = (Ok s, c) ∧ (s = "Cache is empty" ↔ tag_set c = ∅).
Proof.
  intros Hls Hnl Hassoc Hinit Hreach.
  apply str_ready. by eapply reachable_ready_init.
Qed.

Lemma str_says_empty_iff_nothing_resident_witness :
  ∃ s, __str__ (run [Insert 0; Insert 256; Insert 64; Reset]
                    (mkCache 64 4 2 2 2 (empty_sets 2) ∅)).2
       = (Ok s, (run [Insert 0; Insert 256; Insert 64; Reset]
                     (mkCache 64 4 2 2 2 (empty_sets 2) ∅)).2) ∧
    (s = "Cache is empty" ↔
     tag_set (run [Insert 0; Insert 256; Insert 64; Reset]
                  (mkCache 64 4 2 2 2 (empty_sets 2) ∅)).2 = ∅).
Proof.
  apply (str_says_empty_iff_nothing_resident 64 4 2
           (mkCache 64 4 2 2 2 (empty_sets 2) ∅));
    [lia | lia | lia | reflexivity |].
  apply (reachable_run _ [Insert 0; Insert 256; Insert 64; Reset]).
Defined.

(** X23. The heap generator draws a base address that leaves room below
    [max_address] and never goes under it: every address lies between the
    base and [max_address], the first one is at most 100 above the base,
    and no address is more than 100 above the one before it. *)
Theorem HeapPattern_above_base_rising_at_most_100
    (M L : Z) (g : RandomState) :
  0 < M → 0 < L →
  ∃ base first,
    0 ≤ base ≤ Z.max 0 (M - Z.min HeapPattern._DEFAULT_MAX_HEAP_SIZE (M / 2)) ∧
    yielded (HeapPattern.generate_sequence M L g) !! 0%nat = Some first ∧
    first ≤ base + 100 ∧
    Forall (λ a, base ≤ a ≤ M) (yielded (HeapPattern.generate_sequence M L g)) ∧
    ∀ (i : nat) x y,
      yielded (HeapPattern.generate_sequence M L g) !! i = Some x →
      yielded (HeapPattern.generate_sequence M L g) !! S i = Some y →
      y ≤ x + 100.
Proof.
  intros HM HL.
  pose proof (HeapPattern_emits M L HM HL g) as Hemits.
  destruct (HeapPattern_chain M L g HM HL) as (base & Hbase & Hchain).
  destruct (lookup_emitted M L _ 0 Hemits HL) as (first & Hfirst & _); [lia|].
  exists base, first. split_and!; [lia|lia|done| | |].
  - destruct (yielded (HeapPattern.generate_sequence M L g)) as [|a ys];
      [done|]. injection Hfirst as ->. by destruct Hchain as [[_ ?] _].
  - destruct Hemits as (_ & _ & Hall).
    pose proof (chain_Forall _ (λ a, base ≤ a) _ _
                  (λ a b H, proj1 H) Hchain) as Hlow.
    rewrite Forall_forall in *. intros a Ha.
    specialize (Hall a Ha). specialize (Hlow a Ha). simpl in *. lia.
  - intros i x y Hx Hy.
    by destruct (chain_lookup _ _ _ _ _ _ Hchain Hx Hy) as [_ ?].
Qed.

Lemma HeapPattern_above_base_rising_at_most_100_witness :
  ∃ base first,
    0 ≤ base ≤ Z.max 0 (50000 - Z.min HeapPattern._DEFAULT_MAX_HEAP_SIZE
                                      (50000 / 2)) ∧
    yielded (HeapPattern.generate_sequence 50000 12 sample_random) !! 0%nat
      = Some first ∧
    first ≤ base + 100 ∧
    Forall (λ a, base ≤ a ≤ 50000)
      (yielded (HeapPattern.generate_sequence 50000 12 sample_random)) ∧
    ∀ (i : nat) x y,
      yielded (HeapPattern.generate_sequence 50000 12 sample_random) !! i
        = Some x →
      yielded (HeapPattern.generate_sequence 50000 12 sample_random) !! S i
        = Some y →
      y ≤ x + 100.
Proof.
  apply (HeapPattern_above_base_rising_at_most_100 50000 12 sample_random);
    lia.
Defined.
